(** * xsdgen/config.go: options, SOAP array resolution, slice flattening

    A shallow embedding of [src/xsdgen/config.go] and the properties of
    its option system, of [parseSOAPArrayType] / [overrideWildcardType]
    and of [soapArrayToSlice].

    Go strings are byte sequences: they are modelled by [string] and the
    functions of package [strings] that the source calls work on the
    underlying [list ascii]. *)

From Stdlib Require Import ZArith Ascii String List Lia.
From stdpp Require Import base option list gmap strings.

Local Open Scope string_scope.
Local Open Scope Z_scope.
Set Warnings "-register-all".

(** ** Package [strings] *)

Module strings.

Definition bytes := list ascii.

Definition code (a : ascii) : N := N_of_ascii a.

(** The white space of [unicode.IsSpace], as UTF-8 byte sequences.
    One byte: U+0009..U+000D and U+0020. *)
Definition space1 (a : ascii) : bool :=
  ((9 <=? code a) && (code a <=? 13) || (code a =? 32))%N.

(** Two bytes: U+0085 (C2 85) and U+00A0 (C2 A0). *)
Definition space2 (a b : ascii) : bool :=
  ((code a =? 194) && ((code b =? 133) || (code b =? 160)))%N.

(** Three bytes: U+1680 (E1 9A 80), U+2000..U+200A (E2 80 80..8A),
    U+2028, U+2029, U+202F (E2 80 A8/A9/AF), U+205F (E2 81 9F) and
    U+3000 (E3 80 80). *)
Definition space3 (a b c : ascii) : bool :=
  ((code a =? 225) && (code b =? 154) && (code c =? 128)
   || (code a =? 226) && (code b =? 128)
      && ((128 <=? code c) && (code c <=? 138)
          || (code c =? 168) || (code c =? 169) || (code c =? 175))
   || (code a =? 226) && (code b =? 129) && (code c =? 159)
   || (code a =? 227) && (code b =? 128) && (code c =? 128))%N.


(** [l] without the runes recognised by [p1], [p2], [p3] that it
    starts with. *)
Fixpoint trimRunes (p1 : ascii -> bool) (p2 : ascii -> ascii -> bool)
    (p3 : ascii -> ascii -> ascii -> bool) (l : bytes) : bytes :=
  match l with
  | a :: l1 =>
      if p1 a then trimRunes p1 p2 p3 l1 else
      match l1 with
      | b :: l2 =>
          if p2 a b then trimRunes p1 p2 p3 l2 else
          match l2 with
          | c :: l3 => if p3 a b c then trimRunes p1 p2 p3 l3 else l
          | [] => l
          end
      | [] => l
      end
  | [] => []
  end.

(** White space read backwards, for a reversed string. *)
Definition space2r (a b : ascii) : bool := space2 b a.
Definition space3r (a b c : ascii) : bool := space3 c b a.

(** [strings.TrimLeftFunc(s, unicode.IsSpace)] *)
Definition trimLeft (l : bytes) : bytes := trimRunes space1 space2 space3 l.

(** [strings.TrimRightFunc(s, unicode.IsSpace)] *)
Definition trimRight (l : bytes) : bytes :=
  rev (trimRunes space1 space2r space3r (rev l)).

Definition trimSpace (l : bytes) : bytes := trimRight (trimLeft l).

(** [strings.TrimSpace] *)
Definition TrimSpace (s : string) : string :=
  string_of_list_ascii (trimSpace (list_ascii_of_string s)).

(** [strings.HasSuffix] *)
Definition hasSuffix (l suffix : bytes) : bool :=
  bool_decide (drop (length l - length suffix) l = suffix).

Definition trimSuffix (l suffix : bytes) : bytes :=
  if hasSuffix l suffix then take (length l - length suffix) l else l.

(** [strings.TrimSuffix] *)
Definition TrimSuffix (s suffix : string) : string :=
  string_of_list_ascii
    (trimSuffix (list_ascii_of_string s) (list_ascii_of_string suffix)).

(** [strings.Split(s, sep)] for a separator of one byte, the only use
    the source makes of it. The result is never empty. *)
Fixpoint splitByte (sep : ascii) (l : bytes) : list bytes :=
  match l with
  | [] => [[]]
  | a :: l1 =>
      if bool_decide (a = sep) then [] :: splitByte sep l1
      else match splitByte sep l1 with
           | h :: t => (a :: h) :: t
           | [] => [[a]]
           end
  end.

Definition Split (s : string) (sep : ascii) : list string :=
  string_of_list_ascii <$> splitByte sep (list_ascii_of_string s).

(** [strings.Fields]: the maximal runs of bytes between white space.
    [cur] is the field being read, reversed. *)
Definition flush (cur : bytes) (rest : list bytes) : list bytes :=
  match cur with
  | [] => rest
  | _ => rev cur :: rest
  end.

Fixpoint fields (l : bytes) (cur : bytes) : list bytes :=
  match l with
  | [] => flush cur []
  | a :: l1 =>
      if space1 a then flush cur (fields l1 []) else
      match l1 with
      | b :: l2 =>
          if space2 a b then flush cur (fields l2 []) else
          match l2 with
          | c :: l3 =>
              if space3 a b c then flush cur (fields l3 [])
              else fields l1 (a :: cur)
          | [] => fields l1 (a :: cur)
          end
      | [] => fields l1 (a :: cur)
      end
  end.

Definition Fields (s : string) : list string :=
  string_of_list_ascii <$> fields (list_ascii_of_string s) [].

(** [strings.Join] *)
Fixpoint Join (elems : list string) (sep : string) : string :=
  match elems with
  | [] => EmptyString
  | [e] => e
  | e :: rest => e +:+ sep +:+ Join rest sep
  end.

End strings.

(** ** Package [encoding/xml] *)

(** [xml.Name] *)
Record Name := mkName { Space : string; Local : string }.

#[global] Instance Name_eq_dec : EqDecision Name.
Proof. solve_decision. Defined.

(** [xml.Attr] *)
Record Attr := mkAttr { attr_Name : Name; Value : string }.

(** A Go [error] value, by its message. *)
Definition error := string.

(** ** Package [go/ast]: the expressions that reach the post-processing
    step. An [ArrayType] node stands for an array [[n]T] or, without a
    length, for a slice [[]T]. A [StructType] carries its field list. *)
Inductive Expr :=
| Ident (name : string)
| StarExpr (x : Expr)
| SelectorExpr (x : Expr) (sel : string)
| ArrayType (len : option Expr) (elt : Expr)
| MapType (key value : Expr)
| StructType (fields : list Field)
with Field :=
| mkField (names : list string) (type : Expr) (tag : option string).

Definition Field_Type (f : Field) : Expr :=
  match f with mkField _ t _ => t end.

(** ** Package [internal/gen]: the function builder. [gen.Func(name)]
    followed by [Receiver], [Args], [Returns] and [Body] fills this
    record; the body is a template and the values formatted into it. *)
Inductive BodyTemplate := UnmarshalXMLBody | MarshalXMLBody.

Record Function := mkFunction {
  fn_name : string;
  fn_receiver : string;
  fn_args : list string;
  fn_returns : list string;
  fn_body : BodyTemplate;
  fn_bodyArgs : list string }.

(** What the source takes from [internal/gen], whose code is not part of
    this file: reading a key of a struct tag, printing an expression and
    parsing a built function into a declaration, which can fail. *)
Class GenLib := {
  FuncDecl : Type;
  TagKey : Field -> string -> string;
  ExprString : Expr -> string;
  Decl : Function -> FuncDecl + error }.

(** ** Package [regexp] *)
Class RegexpLib := {
  Regexp : Type;
  Compile : string -> Regexp + error;
  ReplaceAllString : Regexp -> string -> string -> string;
  MatchString : Regexp -> string -> bool }.

(** ** Package [xsd] *)

(** What the source takes from [xsd] and [xmltree] without their code:
    the name space scope of an attribute with its [Resolve], and the
    built-in types with their names and bases. *)
Class XsdLib := {
  Scope : Type;
  Resolve : Scope -> string -> Name;
  Builtin : Type;
  BuiltinName : Builtin -> Name;
  BuiltinBase : Builtin -> option Builtin }.

(** The address of a [ComplexType] or of a [SimpleType]. *)
Definition loc := positive.

(** A [Logger] value, by identity. *)
Definition Logger := nat.

(** The messages the source formats, with their arguments. *)
Inductive Diag :=
| InvalidRegexOnlyTypes (pat : string) (err : error)
| InvalidRegexReplaceAllNames (pat : string)
| CouldNotLookupItemType (local space : string)
| WarnArrayExtends (xname baseT basename : string)
| CouldNotOverrideWildcard (tname : string)
| OverridingWildcard (tname from to : string)
| FlatteningStruct (sname : string) (elt : Expr)
| ErrUnmarshalXML (sname : string) (err : error)
| ErrMarshalXML (sname : string) (err : error).

(** How a call ends: with a value, with a panic, or not within the
    iterations it was given. *)
Inductive result (A : Type) :=
| Ok (a : A)
| Panic
| OutOfFuel.
Arguments Ok {A} a.
Arguments Panic {A}.
Arguments OutOfFuel {A}.

Section Model.
Context `{GenLib} `{RegexpLib} `{XsdLib}.

(** A value of the interface [xsd.Type]: nil, a pointer to a complex or
    to a simple type, or a built-in. *)
Inductive Type_ :=
| Nil
| PComplex (p : loc)
| PSimple (p : loc)
| VBuiltin (b : Builtin).

(** Modelled from the spec: [xsd.Attribute] with its qualified name, its
    fixed value, the attributes of its declaration and its scope. *)
Record Attribute := mkAttribute {
  at_Name : Name;
  Fixed : string;
  at_Attr : list Attr;
  at_Scope : Scope }.

(** Modelled from the spec: [xsd.Element] with its qualified name, the
    type it refers to and its wildcard flag. *)
Record Element := mkElement {
  el_Name : Name;
  el_Type : Type_;
  Wildcard : bool }.

(** Modelled from the spec: [xsd.ComplexType] with its base type, its
    attribute list and its element list. Each type owns its lists. *)
Record ComplexType := mkComplexType {
  ct_Name : Name;
  ct_Base : Type_;
  Attributes : list Attribute;
  Elements : list Element }.

(** Modelled from the spec: [xsd.SimpleType], a named type with a base. *)
Record SimpleType := mkSimpleType {
  st_Name : Name;
  st_Base : Type_ }.

(** Modelled from the spec: [xsd.Schema] as its type table, looked up by
    qualified name; [Nil] when the name is absent. *)
Record Schema := mkSchema { FindType : Name -> Type_ }.

(** Modelled from the spec: the draft declaration of one type (struct
    [spec]), with its name, its expression and its methods. *)
Record spec := mkSpec {
  name : string;
  expr : Expr;
  methods : list FuncDecl }.

(** A value passed as [interface{}] to a property filter. *)
Inductive Any :=
| AnyAttribute (a : Attribute)
| AnyElement (e : Element)
| AnyType (t : Type_)
| AnyOther.

(** *** Memory and effects *)

(** The objects of the type graph and what the loggers have printed. *)
Record World := mkWorld {
  complexTypes : gmap loc ComplexType;
  simpleTypes : gmap loc SimpleType;
  printed : list (Logger * Diag) }.

(** What code running on behalf of a [Config] reads from it, and the
    number of iterations a loop may take. *)
Record Env := mkEnv {
  fuel : nat;
  env_logger : option Logger;
  env_loglevel : Z }.

Definition M (A : Type) : Type := Env -> World -> result (A * World).

#[global] Instance M_ret : MRet M := fun A a _ w => Ok (a, w).

#[global] Instance M_bind : MBind M := fun A B f m e w =>
  match m e w with
  | Ok (a, w') => f a e w'
  | Panic => Panic
  | OutOfFuel => OutOfFuel
  end.

Definition panic {A} : M A := fun _ _ => Panic.

Definition lift {A} (f : World -> option A) : M A := fun _ w =>
  match f w with
  | Some a => Ok (a, w)
  | None => Panic
  end.

(** [*p] for [p *xsd.ComplexType] *)
Definition getComplex (p : loc) : M ComplexType :=
  lift (fun w => complexTypes w !! p).

(** [*p = c] *)
Definition putComplex (p : loc) (c : ComplexType) : M unit := fun _ w =>
  Ok (tt, mkWorld (<[p := c]> (complexTypes w)) (simpleTypes w) (printed w)).

(** [l.Printf(format, v...)] *)
Definition Printf (l : Logger) (d : Diag) : M unit := fun _ w =>
  Ok (tt, mkWorld (complexTypes w) (simpleTypes w) (printed w ++ [(l, d)])).

Definition errorf (d : Diag) : M unit := fun e w =>
  match env_logger e with
  | Some l => Printf l d e w
  | None => Ok (tt, w)
  end.

Definition logf (d : Diag) : M unit := fun e w =>
  match env_logger e with
  | Some l => if 0 <? env_loglevel e then Printf l d e w else Ok (tt, w)
  | None => Ok (tt, w)
  end.

Definition debugf (d : Diag) : M unit := fun e w =>
  match env_logger e with
  | Some l => if 3 <? env_loglevel e then Printf l d e w else Ok (tt, w)
  | None => Ok (tt, w)
  end.

(** Modelled from the spec: [xsd.Base], the base-type reference of a
    type, nil when the type has no base; [None] is the panic on a value
    that is no type. *)
Definition Base (w : World) (t : Type_) : option Type_ :=
  match t with
  | PComplex p => ct_Base <$> complexTypes w !! p
  | PSimple p => st_Base <$> simpleTypes w !! p
  | VBuiltin b => Some (from_option VBuiltin Nil (BuiltinBase b))
  | Nil => None
  end.

(** Modelled from the spec: [xsd.XMLName], the qualified name of a
    type; [None] is the panic on a value that is no type. *)
Definition XMLName (w : World) (t : Type_) : option Name :=
  match t with
  | PComplex p => ct_Name <$> complexTypes w !! p
  | PSimple p => st_Name <$> simpleTypes w !! p
  | VBuiltin b => Some (BuiltinName b)
  | Nil => None
  end.

(** The verb [%T] *)
Definition typeOf (t : Type_) : string :=
  match t with
  | PComplex _ => "*xsd.ComplexType"
  | PSimple _ => "*xsd.SimpleType"
  | VBuiltin _ => "xsd.Builtin"
  | Nil => "<nil>"
  end.

(** *** The SOAP array resolver *)

(** How the loop of [overrideWildcardType] over the base chain ends: at
    a wildcard element ([break Loop]), at a type that is no complex type
    (the early [return t]), or at a type without base (the loop
    condition fails). *)
Inductive walkExit :=
| FoundWildcard (elem : Element)
| NotComplex (x : Type_)
| ChainEnd.

(** [for x := xsd.Type(t); xsd.Base(x) != nil; x = xsd.Base(x) { ... }]
    with at most [n] tests of the loop condition. *)
Fixpoint walk (n : nat) (w : World) (x : Type_) : result walkExit :=
  match n with
  | O => OutOfFuel
  | S n' =>
      match Base w x with
      | None => Panic
      | Some Nil => Ok ChainEnd
      | Some b =>
          match x with
          | PComplex p =>
              match complexTypes w !! p with
              | Some c =>
                  match List.find Wildcard (Elements c) with
                  | Some v => Ok (FoundWildcard v)
                  | None => walk n' w b
                  end
              | None => Panic
              end
          | _ => Ok (NotComplex x)
          end
      end
  end.

Definition walkM (x : Type_) : M walkExit := fun e w =>
  match walk (fuel e) w x with
  | Ok r => Ok (r, w)
  | Panic => Panic
  | OutOfFuel => OutOfFuel
  end.

(** [elem.Type = base] on the local copy [elem] *)
Definition retype (elem : Element) (base : Type_) : Element :=
  mkElement (el_Name elem) base (Wildcard elem).

(** [for i, v := range t.Elements { if v.Wildcard { t.Elements[i] = elem;
    replaced = true } }]: [vs] is what is left of the range, [i] its
    index, [cur] the list being written to. *)
Fixpoint replaceWildcards (i : nat) (vs : list Element) (elem : Element)
    (cur : list Element) (replaced : bool) : list Element * bool :=
  match vs with
  | [] => (cur, replaced)
  | v :: vs' =>
      if Wildcard v
      then replaceWildcards (S i) vs' elem (<[i := elem]> cur) true
      else replaceWildcards (S i) vs' elem cur replaced
  end.

Definition setElements (c : ComplexType) (els : list Element) : ComplexType :=
  mkComplexType (ct_Name c) (ct_Base c) (Attributes c) els.

Definition overrideWildcardType (t : loc) (base : Type_) : M loc :=
  r ← walkM (PComplex t);
  match r with
  | NotComplex x =>
      xn ← lift (fun w => XMLName w x);
      bn ← lift (fun w => XMLName w base);
      logf (WarnArrayExtends (Local xn) (typeOf base) (Local bn));;
      mret t
  | ChainEnd =>
      c ← getComplex t;
      logf (CouldNotOverrideWildcard (Local (ct_Name c)));;
      mret t
  | FoundWildcard v =>
      c ← getComplex t;
      from ← lift (fun w => XMLName w (el_Type v));
      to ← lift (fun w => XMLName w base);
      debugf (OverridingWildcard (Local (ct_Name c)) (Local from) (Local to));;
      let elem := retype v base in
      let '(els, replaced) :=
        replaceWildcards 0 (Elements c) elem (Elements c) false in
      putComplex t (setElements c (if replaced then els else els ++ [elem]));;
      mret t
  end.

Definition soapenc : string := "http://schemas.xmlsoap.org/soap/encoding/".
Definition wsdl : string := "http://schemas.xmlsoap.org/wsdl/".

Definition isWsdlArrayType (a : Attr) : bool :=
  bool_decide (attr_Name a = mkName wsdl "arrayType").

(** The two nested loops of [parseSOAPArrayType], both left at their
    first hit: the index and value of the first attribute whose local
    name is [arrayType], and the first of its attributes named
    [wsdl:arrayType]. *)
Definition arrayTypeRef (attrs : list Attribute)
    : option (nat * Attribute * Attr) :=
  match list_find (fun v => Local (at_Name v) = "arrayType") attrs with
  | Some (i, v) =>
      match List.find isWsdlArrayType (at_Attr v) with
      | Some a => Some (i, v, a)
      | None => None
      end
  | None => None
  end.

Definition withFixed (value : string) (v : Attribute) : Attribute :=
  mkAttribute (at_Name v) value (at_Attr v) (at_Scope v).

(** [c.Attributes[i].Fixed = value] *)
Definition setFixed (i : nat) (value : string) (c : ComplexType) : ComplexType :=
  mkComplexType (ct_Name c) (ct_Base c)
    (alter (withFixed value) i (Attributes c)) (Elements c).

(** The two assignments to [itemType.Local] before the lookup. *)
Definition normalize (itemType : Name) : Name :=
  mkName (Space itemType)
    (strings.TrimSuffix (strings.TrimSpace (Local itemType)) "[]").

Definition parseSOAPArrayType (s : Schema) (t : Type_) : M Type_ :=
  match t with
  | PComplex p =>
      c ← getComplex p;
      itemType ←
        match arrayTypeRef (Attributes c) with
        | Some (i, v, a) =>
            putComplex p (setFixed i (Value a) c);;
            mret (Resolve (at_Scope v) (Value a))
        | None => mret (mkName EmptyString EmptyString)
        end;
      if bool_decide (Local itemType = EmptyString) then mret t else
      let itemType := normalize itemType in
      match FindType s itemType with
      | Nil =>
          logf (CouldNotLookupItemType (Local itemType) (Space itemType));;
          mret t
      | b =>
          p' ← overrideWildcardType p b;
          mret (PComplex p')
      end
  | _ => mret t
  end.

(** *** The struct flattener *)

(** The tag of the single field, read as a name: the last word of its
    first comma-separated part, and the first word as name space when
    there are two or more. *)
Definition xmltagOf (tag : string) : Name :=
  let xmltag := mkName EmptyString ",any" in
  if bool_decide (tag = EmptyString) then xmltag else
  match strings.Split tag "," with
  | part :: _ =>
      let fields := strings.Fields part in
      let xmltag :=
        match last fields with
        | Some l => mkName (Space xmltag) l
        | None => xmltag
        end in
      match fields with
      | f :: _ :: _ => mkName f (Local xmltag)
      | _ => xmltag
      end
  | [] => xmltag
  end.

Definition unmarshalFunc (sname : string) (xmltag : Name) (itemType : string)
    : Function :=
  mkFunction "UnmarshalXML" ("a *" +:+ sname)
    ["d *xml.Decoder"; "start xml.StartElement"] ["err error"]
    UnmarshalXMLBody [Space xmltag; Local xmltag; itemType].

Definition marshalFunc (sname : string) : Function :=
  mkFunction "MarshalXML" ("a *" +:+ sname)
    ["e *xml.Encoder"; "start xml.StartElement"] ["error"]
    MarshalXMLBody [].

Definition soapArrayToSlice (s : spec) : M spec :=
  match expr s with
  | StructType [field] =>
      match Field_Type field with
      | ArrayType len elt =>
          debugf (FlatteningStruct (name s) elt);;
          let tag := TagKey field "xml" in
          let xmltag := xmltagOf tag in
          let itemType := ExprString elt in
          match Decl (unmarshalFunc (name s) xmltag itemType) with
          | inr err => logf (ErrUnmarshalXML (name s) err);; mret s
          | inl unmarshal =>
              match Decl (marshalFunc (name s)) with
              | inr err => logf (ErrMarshalXML (name s) err);; mret s
              | inl marshal =>
                  mret (mkSpec (name s) (ArrayType len elt)
                          ((methods s ++ [marshal]) ++ [unmarshal]))
              end
          end
      | _ => mret s
      end
  | _ => mret s
  end.

(** *** Config and its options *)

Definition nameTransform := Name -> M string.
Definition typeTransform := Schema -> Type_ -> M Type_.
Definition propertyFilter := Any -> M bool.
Definition specTransform := spec -> M spec.

(** A nil function value is [None]. The functions stored in a [Config]
    log through that same [Config]: they run in [M], which is given its
    logger and level when they are called. *)
Record Config := mkConfig {
  logger : option Logger;
  loglevel : Z;
  pkgname : string;
  preprocessType : option typeTransform;
  postprocessType : option specTransform;
  filterAttributes : option propertyFilter;
  filterElements : option propertyFilter;
  filterTypes : option propertyFilter;
  typeNameTransform : option nameTransform;
  elemNameTransform : option nameTransform;
  attrNameTransform : option nameTransform;
  allNameTransform : option nameTransform }.

(** The environment of code called on behalf of [cfg]. *)
Definition envOf (n : nat) (cfg : Config) : Env :=
  mkEnv n (logger cfg) (loglevel cfg).

(** A pointer [*propertyFilter] or [*nameTransform] into the [Config]. *)
Inductive filterPtr := FilterAttributes | FilterElements | FilterTypes.
Inductive namePtr := TypeName | ElemName | AttrName | AllName.

(** An [Option] is a closure from a [Config] to an [Option]; the closures this
    package builds are given by the function that builds them and the
    values they capture, and [apply] calls them. *)
Inductive Option :=
| ErrorLog (l : option Logger) (level : Z)
| replacePropertyFilter (p : filterPtr) (fn : option propertyFilter)
| IgnoreAttributes (names : list string)
| IgnoreElements (names : list string)
| OnlyTypes (patterns : list string)
| replaceNameTransform (p : namePtr) (fn : option nameTransform)
| replacePreprocessType (fn : option typeTransform)
| replacePostprocessType (fn : option specTransform)
| PackageName (name : string)
| ReplaceAllNames (pat repl : string)
| replaceAllNamesRegex (reg : Regexp) (repl : string)
| ProcessTypes (fn : typeTransform)
| HandleSOAPArrayType
| SOAPArrayAsSlice.

Definition getFilter (p : filterPtr) (cfg : Config) : option propertyFilter :=
  match p with
  | FilterAttributes => filterAttributes cfg
  | FilterElements => filterElements cfg
  | FilterTypes => filterTypes cfg
  end.

Definition setFilter (p : filterPtr) (fn : option propertyFilter)
    (cfg : Config) : Config :=
  match p with
  | FilterAttributes =>
      mkConfig (logger cfg) (loglevel cfg) (pkgname cfg) (preprocessType cfg)
        (postprocessType cfg) fn (filterElements cfg) (filterTypes cfg)
        (typeNameTransform cfg) (elemNameTransform cfg)
        (attrNameTransform cfg) (allNameTransform cfg)
  | FilterElements =>
      mkConfig (logger cfg) (loglevel cfg) (pkgname cfg) (preprocessType cfg)
        (postprocessType cfg) (filterAttributes cfg) fn (filterTypes cfg)
        (typeNameTransform cfg) (elemNameTransform cfg)
        (attrNameTransform cfg) (allNameTransform cfg)
  | FilterTypes =>
      mkConfig (logger cfg) (loglevel cfg) (pkgname cfg) (preprocessType cfg)
        (postprocessType cfg) (filterAttributes cfg) (filterElements cfg) fn
        (typeNameTransform cfg) (elemNameTransform cfg)
        (attrNameTransform cfg) (allNameTransform cfg)
  end.

Definition getName (p : namePtr) (cfg : Config) : option nameTransform :=
  match p with
  | TypeName => typeNameTransform cfg
  | ElemName => elemNameTransform cfg
  | AttrName => attrNameTransform cfg
  | AllName => allNameTransform cfg
  end.

Definition setName (p : namePtr) (fn : option nameTransform)
    (cfg : Config) : Config :=
  match p with
  | TypeName =>
      mkConfig (logger cfg) (loglevel cfg) (pkgname cfg) (preprocessType cfg)
        (postprocessType cfg) (filterAttributes cfg) (filterElements cfg)
        (filterTypes cfg) fn (elemNameTransform cfg)
        (attrNameTransform cfg) (allNameTransform cfg)
  | ElemName =>
      mkConfig (logger cfg) (loglevel cfg) (pkgname cfg) (preprocessType cfg)
        (postprocessType cfg) (filterAttributes cfg) (filterElements cfg)
        (filterTypes cfg) (typeNameTransform cfg) fn
        (attrNameTransform cfg) (allNameTransform cfg)
  | AttrName =>
      mkConfig (logger cfg) (loglevel cfg) (pkgname cfg) (preprocessType cfg)
        (postprocessType cfg) (filterAttributes cfg) (filterElements cfg)
        (filterTypes cfg) (typeNameTransform cfg) (elemNameTransform cfg)
        fn (allNameTransform cfg)
  | AllName =>
      mkConfig (logger cfg) (loglevel cfg) (pkgname cfg) (preprocessType cfg)
        (postprocessType cfg) (filterAttributes cfg) (filterElements cfg)
        (filterTypes cfg) (typeNameTransform cfg) (elemNameTransform cfg)
        (attrNameTransform cfg) fn
  end.

Definition setPreprocessType (fn : option typeTransform) (cfg : Config)
    : Config :=
  mkConfig (logger cfg) (loglevel cfg) (pkgname cfg) fn
    (postprocessType cfg) (filterAttributes cfg) (filterElements cfg)
    (filterTypes cfg) (typeNameTransform cfg) (elemNameTransform cfg)
    (attrNameTransform cfg) (allNameTransform cfg).

Definition setPostprocessType (fn : option specTransform) (cfg : Config)
    : Config :=
  mkConfig (logger cfg) (loglevel cfg) (pkgname cfg) (preprocessType cfg)
    fn (filterAttributes cfg) (filterElements cfg)
    (filterTypes cfg) (typeNameTransform cfg) (elemNameTransform cfg)
    (attrNameTransform cfg) (allNameTransform cfg).

(** The filter installed by [IgnoreAttributes]. *)
Definition ignoreAttributes (names : list string) : propertyFilter := fun v =>
  match v with
  | AnyAttribute attr =>
      mret (existsb (String.eqb (Local (at_Name attr))) names)
  | _ => panic
  end.

(** The filter installed by [IgnoreElements]. *)
Definition ignoreElements (names : list string) : propertyFilter := fun v =>
  match v with
  | AnyElement el =>
      mret (existsb (String.eqb (Local (el_Name el))) names)
  | _ => panic
  end.

(** The filter installed by [OnlyTypes]. *)
Definition onlyTypes (patterns : list string) : propertyFilter :=
  let pat := strings.Join patterns "|" in
  fun v =>
    match v with
    | AnyType Nil => panic
    | AnyType t =>
        match Compile pat with
        | inr err => logf (InvalidRegexOnlyTypes pat err);; mret false
        | inl reg =>
            n ← lift (fun w => XMLName w t);
            mret (negb (MatchString reg (Local n)))
        end
    | _ => panic
    end.

(** [s := name.Local; if prev != nil { s = prev(name) }] *)
Definition runPrev (prev : option nameTransform) (name : Name) : M string :=
  match prev with
  | Some f => f name
  | None => mret (Local name)
  end.

(** The transform installed by [ReplaceAllNames]. *)
Definition replaceAllNames (prev : option nameTransform) (pat repl : string)
    : nameTransform := fun name =>
  s ← runPrev prev name;
  match Compile pat with
  | inr _ => logf (InvalidRegexReplaceAllNames pat);; mret s
  | inl reg => mret (ReplaceAllString reg s repl)
  end.

(** The transform installed by [replaceAllNamesRegex]. *)
Definition replaceAllNamesWith (prev : option nameTransform) (reg : Regexp)
    (repl : string) : nameTransform := fun name =>
  s ← runPrev prev name;
  mret (ReplaceAllString reg s repl).

(** The transforms installed by [ProcessTypes] and
    [HandleSOAPArrayType]. *)
Definition processTypes (prev : option typeTransform) (fn : typeTransform)
    : typeTransform := fun s t =>
  t ← match prev with
      | Some f => f s t
      | None => mret t
      end;
  fn s t.

(** The transform installed by [SOAPArrayAsSlice]. *)
Definition soapArrayAsSlice (prev : option specTransform) : specTransform :=
  fun s =>
    s ← match prev with
        | Some f => f s
        | None => mret s
        end;
    soapArrayToSlice s.

(** Calling an option on the [Config]: the [Config] it leaves and the
    option it returns. *)
Definition apply (opt : Option) (cfg : Config) : Config * Option :=
  match opt with
  | ErrorLog l level =>
      (mkConfig l level (pkgname cfg) (preprocessType cfg)
         (postprocessType cfg) (filterAttributes cfg) (filterElements cfg)
         (filterTypes cfg) (typeNameTransform cfg) (elemNameTransform cfg)
         (attrNameTransform cfg) (allNameTransform cfg),
       ErrorLog (logger cfg) (loglevel cfg))
  | replacePropertyFilter p fn =>
      (setFilter p fn cfg, replacePropertyFilter p (getFilter p cfg))
  | IgnoreAttributes names =>
      (setFilter FilterAttributes (Some (ignoreAttributes names)) cfg,
       replacePropertyFilter FilterAttributes (filterAttributes cfg))
  | IgnoreElements names =>
      (setFilter FilterElements (Some (ignoreElements names)) cfg,
       replacePropertyFilter FilterElements (filterElements cfg))
  | OnlyTypes patterns =>
      (setFilter FilterTypes (Some (onlyTypes patterns)) cfg,
       replacePropertyFilter FilterTypes (filterTypes cfg))
  | replaceNameTransform p fn =>
      (setName p fn cfg, replaceNameTransform p (getName p cfg))
  | replacePreprocessType fn =>
      (setPreprocessType fn cfg, replacePreprocessType (preprocessType cfg))
  | replacePostprocessType fn =>
      (setPostprocessType fn cfg, replacePostprocessType (postprocessType cfg))
  | PackageName name =>
      (mkConfig (logger cfg) (loglevel cfg) name (preprocessType cfg)
         (postprocessType cfg) (filterAttributes cfg) (filterElements cfg)
         (filterTypes cfg) (typeNameTransform cfg) (elemNameTransform cfg)
         (attrNameTransform cfg) (allNameTransform cfg),
       PackageName (pkgname cfg))
  | ReplaceAllNames pat repl =>
      let prev := allNameTransform cfg in
      (setName AllName (Some (replaceAllNames prev pat repl)) cfg,
       replaceNameTransform AllName prev)
  | replaceAllNamesRegex reg repl =>
      let prev := allNameTransform cfg in
      (setName AllName (Some (replaceAllNamesWith prev reg repl)) cfg,
       replaceNameTransform AllName prev)
  | ProcessTypes fn =>
      let prev := preprocessType cfg in
      (setPreprocessType (Some (processTypes prev fn)) cfg,
       replacePreprocessType prev)
  | HandleSOAPArrayType =>
      let prev := preprocessType cfg in
      (setPreprocessType (Some (processTypes prev parseSOAPArrayType)) cfg,
       replacePreprocessType prev)
  | SOAPArrayAsSlice =>
      let prev := postprocessType cfg in
      (setPostprocessType (Some (soapArrayAsSlice prev)) cfg,
       replacePostprocessType prev)
  end.

(** [func (cfg *Config) Option(opts ...Option) (previous Option)]: the
    [Config] after the loop and [previous], nil when there was no
    option. *)
Definition Config_Option (cfg : Config) (opts : list Option)
    : Config * option Option :=
  foldl (fun '(cfg, previous) opt =>
           let '(cfg', previous') := apply opt cfg in (cfg', Some previous'))
        (cfg, None) opts.

(** A [Config] as declared, every field at its zero value. *)
Definition emptyConfig : Config :=
  mkConfig None 0 EmptyString None None None None None None None None None.

Definition DefaultOptions : list Option :=
  [ IgnoreAttributes ["id"; "href"; "ref"; "offset"];
    ReplaceAllNames "[._ \s-]" EmptyString;
    PackageName "ws";
    HandleSOAPArrayType;
    SOAPArrayAsSlice ].

End Model.


(** ** The rest of [config.go]: filtering the fields of a type *)

Section Fields.
Context `{GenLib} `{RegexpLib} `{XsdLib}.

(** One loop of [filterFields]: [for _, x := range l { if filter != nil
    && filter(&x) { continue }; kept = append(kept, x) }]. The range
    reads the list as it stands when the loop starts; [ptr] makes the
    [interface{}] value handed to the filter. *)
Fixpoint keep {A} (filter : option propertyFilter) (ptr : A -> Any)
    (l : list A) : M (list A) :=
  match l with
  | [] => mret []
  | x :: l' =>
      skip ← match filter with
             | Some fn => fn (ptr x)
             | None => mret false
             end;
      kept ← keep filter ptr l';
      mret (if (skip : bool) then kept else x :: kept)
  end.

Definition filterFields (cfg : Config) (t : loc)
    : M (list Attribute * list Element) :=
  c ← getComplex t;
  attributes ← keep (filterAttributes cfg) AnyAttribute (Attributes c);
  c ← getComplex t;
  elements ← keep (filterElements cfg) AnyElement (Elements c);
  mret (attributes, elements).

End Fields.
(** ** Stand-ins for the external packages

    Small implementations of the three interfaces, to run the model on
    concrete inputs. The theorems hold for every implementation. *)

Module demo.

(** Patterns [[abc]]: a character class, every member replaced. Any
    other pattern does not compile. *)
Definition compileClass (pat : string) : list ascii + error :=
  match list_ascii_of_string pat with
  | "["%char :: rest =>
      match rev rest with
      | "]"%char :: cls => inl (rev cls)
      | _ => inr "missing closing ]"
      end
  | _ => inr "unsupported pattern"
  end.

Definition replaceClass (cls : list ascii) (s repl : string) : string :=
  String.concat EmptyString
    ((fun a => if bool_decide (a ∈ cls) then repl else String a EmptyString)
       <$> list_ascii_of_string s).

Definition matchClass (cls : list ascii) (s : string) : bool :=
  existsb (fun a => bool_decide (a ∈ cls)) (list_ascii_of_string s).

Definition regexpLib : RegexpLib :=
  Build_RegexpLib (list ascii) compileClass replaceClass matchClass.

(** A scope binds prefixes to name spaces; a reference [prefix:local] is
    cut at its first colon. *)
Fixpoint cutColon (l : list ascii) : option (list ascii * list ascii) :=
  match l with
  | [] => None
  | a :: l' =>
      if bool_decide (a = ":"%char) then Some ([], l')
      else match cutColon l' with
           | Some (pre, post) => Some (a :: pre, post)
           | None => None
           end
  end.

Definition resolve (sc : list (string * string)) (qname : string) : Name :=
  let find pre := default EmptyString (snd <$> List.find (fun b => String.eqb (fst b) pre) sc) in
  match cutColon (list_ascii_of_string qname) with
  | Some (pre, post) =>
      mkName (find (string_of_list_ascii pre)) (string_of_list_ascii post)
  | None => mkName (find EmptyString) qname
  end.

Definition xs : string := "http://www.w3.org/2001/XMLSchema".

(** Built-in types by name, all derived from [anyType], which has no
    base. *)
Definition xsdLib : XsdLib :=
  Build_XsdLib (list (string * string)) resolve string (mkName xs)
    (fun b => if String.eqb b "anyType" then None else Some "anyType").

(** Declarations are the built functions themselves; [bad] tells the
    functions whose body does not parse. *)
Definition genLib (bad : Function -> bool) : GenLib :=
  Build_GenLib Function
    (fun f _ => match f with mkField _ _ tag => default EmptyString tag end)
    (fun e => match e with Ident n => n | _ => "?" end)
    (fun f => if bad f then inr "syntax error" else inl f).


Definition never (f : Function) : bool := false.

End demo.

(** ** Notions used to state the properties *)

Module strings_spec.
Import strings.
Local Open Scope list_scope.






End strings_spec.

Section Notions.
Context `{GenLib} `{RegexpLib} `{XsdLib}.

(** What a logging call of level above [min] makes the logger of the
    environment print: the message when there is a logger and the level
    is above [min], nothing otherwise. *)
Definition emitted (min : Z) (e : Env) (d : Diag) : list (Logger * Diag) :=
  match env_logger e with
  | Some l => if min <? env_loglevel e then [(l, d)] else []
  | None => []
  end.

(** The world after the loggers printed [ds] more. *)
Definition print (w : World) (ds : list (Logger * Diag)) : World :=
  mkWorld (complexTypes w) (simpleTypes w) (printed w ++ ds).

(** The world after the complex type at [p] became [c]. *)
Definition store (w : World) (p : loc) (c : ComplexType) : World :=
  mkWorld (<[p := c]> (complexTypes w)) (simpleTypes w) (printed w).

Definition hasWildcard (c : ComplexType) : bool :=
  existsb Wildcard (Elements c).

(** [climbs w x n y]: ascending from [x] one base link at a time, [n]
    complex types that have a base and no wildcard element are passed
    before [y] is reached. *)
Inductive climbs (w : World) : Type_ -> nat -> Type_ -> Prop :=
| climbs_here x : climbs w x 0 x
| climbs_up p c n y :
    complexTypes w !! p = Some c ->
    ct_Base c <> Nil ->
    hasWildcard c = false ->
    climbs w (ct_Base c) n y ->
    climbs w (PComplex p) (S n) y.

(** The element list after the override with template [elem]: every
    wildcard element replaced where it stands, or [elem] appended when
    there is none. *)
Definition overridden (elem : Element) (els : list Element) : list Element :=
  if existsb Wildcard els
  then (fun v => if Wildcard v then elem else v) <$> els
  else els ++ [elem].


(** One rule of [ReplaceAllNames] applied to a string: the substitution
    when the pattern compiles, and no change, with a message, when it
    does not. *)
Definition applyRule (pat repl : string) (s : string) : M string :=
  match Compile pat with
  | inl reg => mret (ReplaceAllString reg s repl)
  | inr _ => logf (InvalidRegexReplaceAllNames pat);; mret s
  end.



End Notions.

(** ** Notions for the further properties *)

Section MoreNotions.
Context `{GenLib} `{RegexpLib} `{XsdLib}.

(** The rules of a list applied one after the other. *)
Fixpoint applyRules (rules : list (string * string)) (s : string) : M string :=
  match rules with
  | [] => mret s
  | (pat, repl) :: rest => s' ← applyRule pat repl s; applyRules rest s'
  end.

(** The substitutions of compiled rules, one after the other. *)
Definition substAll (regs : list (Regexp * string)) (s : string) : string :=
  foldl (fun s '(reg, repl) => ReplaceAllString reg s repl) s regs.

(** A caller applying options one at a time and keeping what each
    returns, the latest first. *)
Fixpoint applyEach (cfg : Config) (opts : list Option) (undo : list Option)
    : Config * list Option :=
  match opts with
  | [] => (cfg, undo)
  | opt :: rest =>
      let '(cfg', previous) := apply opt cfg in
      applyEach cfg' rest (previous :: undo)
  end.

(** The same caller applying a list of options and dropping what they
    return. *)
Definition applyAll (cfg : Config) (opts : list Option) : Config :=
  foldl (fun cfg opt => fst (apply opt cfg)) cfg opts.

(** [s := t; if prev != nil { s = prev(s) }] for type transforms. *)
Definition runPrevType (prev : option typeTransform) (s : Schema) (t : Type_)
    : M Type_ :=
  match prev with
  | Some f => f s t
  | None => mret t
  end.

(** The local name is not among [names]. *)
Definition notNamed (names : list string) (n : Name) : bool :=
  bool_decide (Local n ∉ names).


(** [els'] is [els] with wildcard elements possibly replaced and at most
    one wildcard element added at the end: every element that is no
    wildcard stands in both lists at the same index. *)
Definition sameButWildcards (els els' : list Element) : Prop :=
  (forall i el, els !! i = Some el -> Wildcard el = false ->
     els' !! i = Some el) /\
  (forall i el, els' !! i = Some el -> Wildcard el = false ->
     els !! i = Some el) /\
  (length els <= length els' <= S (length els))%nat.


(** The options a user of the package can build: those of its exported
    functions. *)
Definition exported (opt : Option) : bool :=
  match opt with
  | ErrorLog _ _ | IgnoreAttributes _ | IgnoreElements _ | OnlyTypes _
  | PackageName _ | ReplaceAllNames _ _ | ProcessTypes _
  | HandleSOAPArrayType | SOAPArrayAsSlice => true
  | _ => false
  end.

(** The options a user can hold: the exported ones and those that
    options he holds return, on whatever [Config]. *)
Inductive obtainable : Option -> Prop :=
| obtainable_exported opt : exported opt = true -> obtainable opt
| obtainable_returned opt cfg :
    obtainable opt -> obtainable (snd (apply opt cfg)).

(** The option writes to none of the name-transform slots for types,
    elements and attributes. *)
Definition keepsNameSlots (opt : Option) : bool :=
  match opt with
  | replaceNameTransform AllName _ => true
  | replaceNameTransform _ _ => false
  | _ => true
  end.

(** [s] is a word of [tag]: not empty, made of bytes of [tag], none of
    them a comma or a white-space byte. *)
Definition wordOf (tag s : string) : Prop :=
  s <> EmptyString /\
  forall a, a ∈ list_ascii_of_string s ->
    a ∈ list_ascii_of_string tag /\ a <> ","%char /\ strings.space1 a = false.

End MoreNotions.

(** ** A small type graph

    The SOAP array of the comment above [parseSOAPArrayType], a type
    derived from it, a complex type over a simple type, and a complex
    type without base. *)

Module example.

#[local] Existing Instance demo.regexpLib.
#[local] Existing Instance demo.xsdLib.

Definition genOk : GenLib := demo.genLib demo.never.

Definition tns : string := "urn:example".

Definition scope : list (string * string) :=
  [("xs", demo.xs); ("tns", tns); ("soapenc", soapenc)].

Definition int : Type_ := VBuiltin "int".

Definition xsName (local : string) : Name := mkName demo.xs local.

Definition anyEl : Element :=
  mkElement (mkName EmptyString "any") (VBuiltin "anyType") true.

Definition nameEl : Element :=
  mkElement (mkName tns "name") (VBuiltin "string") false.

(** [<xs:attribute name="arrayType" type="xs:string"/>], reduced to
    what the model keeps of it. *)
Definition plainArrayType : Attribute :=
  mkAttribute (mkName soapenc "arrayType") EmptyString [] scope.

(** An [arrayType] attribute with the reference [ref] as
    [wsdl:arrayType]. *)
Definition arrayTypeOf (ref : string) : Attribute :=
  mkAttribute (mkName soapenc "arrayType") EmptyString
    [mkAttr (mkName EmptyString "ref") "soapenc:arrayType";
     mkAttr (mkName wsdl "arrayType") ref] scope.

Definition idAttr : Attribute :=
  mkAttribute (mkName EmptyString "id") EmptyString [] scope.

Definition Array : ComplexType :=
  mkComplexType (mkName soapenc "Array") (VBuiltin "anyType")
    [plainArrayType] [anyEl].

Definition IntArray : ComplexType :=
  mkComplexType (mkName tns "IntArray") (PComplex 1%positive)
    [idAttr; arrayTypeOf "xs:int[]"] [nameEl].

Definition Code : SimpleType :=
  mkSimpleType (mkName tns "Code") (VBuiltin "string").

Definition Coded : ComplexType :=
  mkComplexType (mkName tns "Coded") (PSimple 3%positive) [] [nameEl].

Definition Root : ComplexType :=
  mkComplexType (mkName tns "Root") Nil [] [nameEl; anyEl].

(** An array of a type that the schema does not declare. *)
Definition GhostArray : ComplexType :=
  mkComplexType (mkName tns "GhostArray") (PComplex 1%positive)
    [arrayTypeOf "tns:Ghost[]"] [].

(** An array whose reference has a prefix and nothing after it. *)
Definition NamelessArray : ComplexType :=
  mkComplexType (mkName tns "NamelessArray") (PComplex 1%positive)
    [arrayTypeOf "xs:"] [].

(** Two [arrayType] attributes, the first without reference. *)
Definition TwoArrayTypes : ComplexType :=
  mkComplexType (mkName tns "TwoArrayTypes") (PComplex 1%positive)
    [idAttr; plainArrayType; arrayTypeOf "xs:int[]"] [].

Definition world : World :=
  mkWorld
    (<[1%positive := Array]> (<[2%positive := IntArray]>
      (<[4%positive := Coded]> (<[5%positive := Root]>
        (<[6%positive := GhostArray]> (<[7%positive := TwoArrayTypes]>
          (<[8%positive := NamelessArray]> ∅)))))))
    (<[3%positive := Code]> ∅)
    [].

(** Two complex types, each the base of the other. *)
Definition Ping : ComplexType :=
  mkComplexType (mkName tns "Ping") (PComplex 2%positive) [] [nameEl].

Definition Pong : ComplexType :=
  mkComplexType (mkName tns "Pong") (PComplex 1%positive) [] [].

Definition loop : World :=
  mkWorld (<[1%positive := Ping]> (<[2%positive := Pong]> ∅)) ∅ [].

(** The schema declares nothing but the built-in [xs:int]. *)
Definition schema : Schema :=
  mkSchema (fun n =>
    if bool_decide (n = xsName "int") then int else Nil).

Definition emptySchema : Schema := mkSchema (fun _ => Nil).

(** A [Config] with logger 0 at level 5, and one without logger. *)
Definition verbose : Env := mkEnv 8 (Some 0%nat) 5.
Definition silent : Env := mkEnv 8 None 0.

Definition intSlice : Expr := ArrayType None (Ident "int").

Definition items : Field := mkField ["Items"] intSlice (Some "item").

(** [struct { Items []int }], and a struct with one field more. *)
Definition wrapper : @spec genOk :=
  mkSpec "IntArray" (StructType [items]) [].




End example.

(** ** Properties of the string functions *)

Local Open Scope list_scope.

Section Trimming.
Import strings strings_spec.
Variable p1 : ascii -> bool.
Variable p2 : ascii -> ascii -> bool.
Variable p3 : ascii -> ascii -> ascii -> bool.





End Trimming.

Section TrimSpace.
Import strings strings_spec.






End TrimSpace.

(** ** Properties *)

Local Open Scope list_scope.

Section Properties.
Context `{GenLib} `{RegexpLib} `{XsdLib}.

Lemma print_nil w : print w [] = w.
Proof. destruct w; unfold print; simpl. by rewrite app_nil_r. Qed.


Lemma logf_emitted d e w : logf d e w = Ok (tt, print w (emitted 0 e d)).
Proof.
  unfold logf, emitted. destruct (env_logger e); [|by rewrite print_nil].
  destruct (0 <? env_loglevel e); [done|by rewrite print_nil].
Qed.

Lemma debugf_emitted d e w : debugf d e w = Ok (tt, print w (emitted 3 e d)).
Proof.
  unfold debugf, emitted. destruct (env_logger e); [|by rewrite print_nil].
  destruct (3 <? env_loglevel e); [done|by rewrite print_nil].
Qed.

(** *** The option system *)

Lemma Config_Option_nil cfg : Config_Option cfg [] = (cfg, None).
Proof. reflexivity. Qed.

Lemma Config_Option_snoc cfg opts opt :
  Config_Option cfg (opts ++ [opt]) =
  (fst (apply opt (fst (Config_Option cfg opts))),
   Some (snd (apply opt (fst (Config_Option cfg opts))))).
Proof.
  unfold Config_Option. rewrite foldl_snoc.
  destruct (foldl _ _ opts) as [cfg' previous]; simpl.
  by destruct (apply opt cfg').
Qed.

Lemma apply_inverse opt cfg :
  fst (apply (snd (apply opt cfg)) (fst (apply opt cfg))) = cfg.
Proof.
  destruct cfg, opt; try destruct p; reflexivity.
Qed.

(** C1 (as amended): for every non-empty sequence of options built by
    this package, [Config.Option] returns the inverse of the final option
    only: applying the returned option restores the [Config], field by
    field, to its state immediately before the last option of the
    sequence was applied. *)
Theorem Config_Option_reverts_final_option cfg opts opt :
  exists previous,
    snd (Config_Option cfg (opts ++ [opt])) = Some previous /\
    fst (apply previous (fst (Config_Option cfg (opts ++ [opt]))))
    = fst (Config_Option cfg opts).
Proof.
  rewrite Config_Option_snoc; simpl. eexists; split; [reflexivity|].
  apply apply_inverse.
Qed.

(** C6: installing rule A and then rule B with [ReplaceAllNames] leaves
    a transform that runs the chain installed before (the local name
    when there was none), applies A to its result and then B to the
    result of A; with no chain before and two patterns that compile,
    its output is B's substitution applied to A's substitution of the
    local name. *)
Theorem ReplaceAllNames_installation_order cfg patA replA patB replB :
  exists f,
    allNameTransform
      (fst (Config_Option cfg
              [ReplaceAllNames patA replA; ReplaceAllNames patB replB]))
    = Some f /\
    (forall name e w,
       f name e w =
       (s0 ← runPrev (allNameTransform cfg) name;
        s1 ← applyRule patA replA s0;
        applyRule patB replB s1) e w) /\
    (forall ra rb name e w,
       allNameTransform cfg = None ->
       Compile patA = inl ra -> Compile patB = inl rb ->
       f name e w =
       Ok (ReplaceAllString rb (ReplaceAllString ra (Local name) replA) replB,
           w)).
Proof.
  eexists; split; [reflexivity|]. split.
  - intros name e w.
    unfold replaceAllNames, applyRule, mbind, M_bind, mret, M_ret; simpl.
    destruct (runPrev (allNameTransform cfg) name e w) as [[s0 w0]| |]; [|done..].
    destruct (Compile patA) as [ra|erra]; [done|].
    by destruct (logf (InvalidRegexReplaceAllNames patA) e w0) as [[[] w1]| |].
  - intros ra rb name e w Hprev Ha Hb.
    unfold replaceAllNames, mbind, M_bind, mret, M_ret; simpl.
    by rewrite Hprev, Ha, Hb.
Qed.

(** *** The struct flattener *)



(** *** The SOAP array resolver *)

Lemma find_existsb {A} (f : A -> bool) (l : list A) :
  List.find f l = None <-> existsb f l = false.
Proof.
  induction l as [|a l IH]; simpl; [done|].
  destruct (f a); simpl; [split; discriminate|done].
Qed.

Lemma find_Some_existsb {A} (f : A -> bool) (l : list A) v :
  List.find f l = Some v -> existsb f l = true.
Proof.
  intros Hf. destruct (existsb f l) eqn:He; [done|].
  apply find_existsb in He. congruence.
Qed.

Lemma walk_climbs w x n y k :
  climbs w x n y -> walk (n + S k) w x = walk (S k) w y.
Proof.
  induction 1 as [|p c n y Hp Hb Hw _ IH]; [done|].
  apply find_existsb in Hw.
  change (S n + S k)%nat with (S (n + S k)).
  cbn [walk Base]. rewrite Hp; cbn [fmap option_fmap option_map].
  rewrite Hw. by destruct (ct_Base c).
Qed.

(** More iterations than a walk needs do not change how it ends. *)
Lemma walk_more_fuel w n k x r :
  walk n w x = r -> r <> OutOfFuel -> walk (n + k) w x = r.
Proof.
  revert x. induction n as [|n IH]; intros x Hr Hne; [by subst|].
  change (S n + k)%nat with (S (n + k)). cbn [walk] in *.
  destruct (Base w x) as [[|q|q|b]|]; try done;
    (destruct x as [|p|p|b']; [done| |done..];
     destruct (complexTypes w !! p) as [c|]; [|done];
     destruct (List.find Wildcard (Elements c)); [done|]; by apply IH).
Qed.

Lemma walk_found w a ca v k :
  complexTypes w !! a = Some ca -> ct_Base ca <> Nil ->
  List.find Wildcard (Elements ca) = Some v ->
  walk (S k) w (PComplex a) = Ok (FoundWildcard v).
Proof.
  intros Ha Hb Hv. cbn [walk Base]. rewrite Ha; cbn [fmap option_fmap option_map].
  rewrite Hv. by destruct (ct_Base ca).
Qed.



Lemma replaceWildcards_spec elem vs pre r :
  replaceWildcards (length pre) vs elem (pre ++ vs) r =
  (pre ++ ((fun v => if Wildcard v then elem else v) <$> vs),
   r || existsb Wildcard vs).
Proof.
  revert pre r. induction vs as [|v vs IH]; intros pre r; simpl.
  { by rewrite orb_false_r. }
  destruct (Wildcard v) eqn:Hv; simpl.
  - rewrite insert_app_r_alt, Nat.sub_diag by lia. cbn [insert list_insert].
    replace (S (length pre)) with (length (pre ++ [elem]))
      by (rewrite length_app; simpl; lia).
    replace (pre ++ elem :: vs) with ((pre ++ [elem]) ++ vs)
      by (by rewrite <- app_assoc).
    rewrite IH, <- app_assoc. simpl. by rewrite orb_true_r.
  - replace (S (length pre)) with (length (pre ++ [v]))
      by (rewrite length_app; simpl; lia).
    replace (pre ++ v :: vs) with ((pre ++ [v]) ++ vs)
      by (by rewrite <- app_assoc).
    rewrite IH, <- app_assoc. done.
Qed.

Lemma replaceWildcards_overridden elem els :
  (let '(els', replaced) := replaceWildcards 0 els elem els false in
   if replaced then els' else els' ++ [elem]) = overridden elem els.
Proof.
  pose proof (replaceWildcards_spec elem els [] false) as Hr.
  simpl in Hr. rewrite Hr. unfold overridden.
  destruct (existsb Wildcard els) eqn:He; [done|].
  f_equal. clear Hr. induction els as [|v vs IH]; [done|]. simpl in *.
  apply orb_false_elim in He as [Hv He]. rewrite Hv. f_equal. by apply IH.
Qed.

Lemma overridden_lookup elem els i el :
  existsb Wildcard els = true -> els !! i = Some el ->
  overridden elem els !! i = Some (if Wildcard el then elem else el).
Proof.
  intros He Hi. unfold overridden. rewrite He, list_lookup_fmap, Hi. done.
Qed.

(** The three ways [overrideWildcardType] ends, after ascending from
    [t] to [x]. *)
Lemma overrideWildcardType_found w e t ct n a ca v base from to :
  climbs w (PComplex t) n (PComplex a) -> (n < fuel e)%nat ->
  complexTypes w !! t = Some ct ->
  complexTypes w !! a = Some ca -> ct_Base ca <> Nil ->
  List.find Wildcard (Elements ca) = Some v ->
  XMLName w (el_Type v) = Some from -> XMLName w base = Some to ->
  overrideWildcardType t base e w =
  Ok (t, store (print w (emitted 3 e
                  (OverridingWildcard (Local (ct_Name ct)) (Local from) (Local to))))
           t (setElements ct (overridden (retype v base) (Elements ct)))).
Proof.
  intros Hc Hn Ht Ha Hb Hv Hfrom Hto.
  unfold overrideWildcardType, mbind, M_bind, walkM.
  replace (fuel e) with (n + S (fuel e - n - 1))%nat by lia.
  rewrite (walk_climbs _ _ _ _ _ Hc), (walk_found _ _ _ _ _ Ha Hb Hv).
  unfold getComplex, lift. rewrite Ht, Hfrom, Hto, debugf_emitted.
  pose proof (replaceWildcards_overridden (retype v base) (Elements ct)) as Hr.
  destruct (replaceWildcards 0 (Elements ct) (retype v base) (Elements ct) false)
    as [els' replaced].
  unfold mret, M_ret, putComplex. simpl. by rewrite Hr.
Qed.



(** C2 (as amended): [overrideWildcardType] ascends from the type
    itself one base link at a time and inspects only types that have a
    base; it stops at the first complex type among them that holds a
    wildcard element, takes the first such element as template, retypes
    it to the item type and, in the element list of the original type,
    puts the retyped template in the place of every wildcard element,
    each at its index, or appends it when that list holds no wildcard
    element. A type without base ends the walk uninspected. (The type
    of the template and the item type are values with a name, as every
    type is; the walk is given more iterations than it has types to
    pass.) *)
Theorem overrideWildcardType_override w e t ct n a ca v base from to :
  climbs w (PComplex t) n (PComplex a) -> (n < fuel e)%nat ->
  complexTypes w !! t = Some ct ->
  complexTypes w !! a = Some ca -> ct_Base ca <> Nil ->
  List.find Wildcard (Elements ca) = Some v ->
  XMLName w (el_Type v) = Some from -> XMLName w base = Some to ->
  exists els',
    overrideWildcardType t base e w =
    Ok (t, store (print w (emitted 3 e
                    (OverridingWildcard (Local (ct_Name ct))
                       (Local from) (Local to))))
             t (setElements ct els')) /\
    (hasWildcard ct = true ->
     length els' = length (Elements ct) /\
     forall i el, Elements ct !! i = Some el ->
       els' !! i = Some (if Wildcard el then retype v base else el)) /\
    (hasWildcard ct = false -> els' = Elements ct ++ [retype v base]).
Proof.
  intros Hc Hn Ht Ha Hb Hv Hfrom Hto.
  exists (overridden (retype v base) (Elements ct)).
  split; [by eapply overrideWildcardType_found|]. split.
  - intros Hw. split.
    + unfold overridden, hasWildcard in *. by rewrite Hw, length_fmap.
    + intros i el Hi. by apply overridden_lookup.
  - intros Hw. unfold overridden, hasWildcard in *. by rewrite Hw.
Qed.



Lemma arrayTypeRef_first pre v post :
  Forall (fun x => Local (at_Name x) <> "arrayType") pre ->
  Local (at_Name v) = "arrayType" ->
  arrayTypeRef (pre ++ v :: post) =
  match List.find isWsdlArrayType (at_Attr v) with
  | Some a => Some (length pre, v, a)
  | None => None
  end.
Proof.
  intros Hpre Hv. unfold arrayTypeRef.
  assert (list_find (fun v => Local (at_Name v) = "arrayType") (pre ++ v :: post)
          = Some (length pre, v)) as ->; [|done].
  apply list_find_Some. split; [by rewrite list_lookup_middle|].
  split; [done|]. intros j y Hj Hlt.
  rewrite lookup_app_l in Hj by done.
  rewrite Forall_forall in Hpre. apply Hpre.
  eapply list_elem_of_lookup_2, Hj.
Qed.

Lemma arrayTypeRef_lookup attrs i v a :
  arrayTypeRef attrs = Some (i, v, a) -> attrs !! i = Some v.
Proof.
  unfold arrayTypeRef. intros Hr.
  destruct (list_find _ attrs) as [[j u]|] eqn:Hf; [|done].
  destruct (List.find _ (at_Attr u)); [|done]. simplify_eq.
  by apply list_find_Some in Hf as [? _].
Qed.

Lemma parseSOAPArrayType_found_ref s p c i v a e w :
  complexTypes w !! p = Some c ->
  arrayTypeRef (Attributes c) = Some (i, v, a) ->
  Local (Resolve (at_Scope v) (Value a)) <> EmptyString ->
  parseSOAPArrayType s (PComplex p) e w =
  match FindType s (normalize (Resolve (at_Scope v) (Value a))) with
  | Nil =>
      Ok (PComplex p,
          print (store w p (setFixed i (Value a) c))
            (emitted 0 e
               (CouldNotLookupItemType
                  (Local (normalize (Resolve (at_Scope v) (Value a))))
                  (Space (normalize (Resolve (at_Scope v) (Value a)))))))
  | b =>
      match overrideWildcardType p b e (store w p (setFixed i (Value a) c)) with
      | Ok (p', w') => Ok (PComplex p', w')
      | Panic => Panic
      | OutOfFuel => OutOfFuel
      end
  end.
Proof.
  intros Hp Hr Hl.
  unfold parseSOAPArrayType, mbind, M_bind, getComplex, lift.
  rewrite Hp, Hr. unfold putComplex, mret, M_ret.
  rewrite bool_decide_eq_false_2 by done.
  destruct (FindType s _); [|done..].
  by rewrite logf_emitted.
Qed.

(** C3 (as amended): when the first [arrayType] attribute of a complex
    type carries a [wsdl:arrayType] reference whose normalized name is
    not in the type table of the schema, [parseSOAPArrayType] returns
    the original type, changed in one place only, the [Fixed] value of
    that attribute, now the text of the reference; and it passes one
    message with the local name and the name space to [logf], which
    prints it when the [Config] has a logger and a log level above 0
    and prints nothing otherwise. *)
Theorem parseSOAPArrayType_unresolved s p c i v a e w :
  complexTypes w !! p = Some c ->
  arrayTypeRef (Attributes c) = Some (i, v, a) ->
  Local (Resolve (at_Scope v) (Value a)) <> EmptyString ->
  FindType s (normalize (Resolve (at_Scope v) (Value a))) = Nil ->
  let item := normalize (Resolve (at_Scope v) (Value a)) in
  let c' := mkComplexType (ct_Name c) (ct_Base c)
              (<[i := withFixed (Value a) v]> (Attributes c)) (Elements c) in
  Attributes c !! i = Some v /\
  parseSOAPArrayType s (PComplex p) e w =
  Ok (PComplex p,
      mkWorld (<[p := c']> (complexTypes w)) (simpleTypes w)
        (printed w ++
         emitted 0 e (CouldNotLookupItemType (Local item) (Space item)))).
Proof.
  intros Hp Hr Hl Hf item c'.
  pose proof (arrayTypeRef_lookup _ _ _ _ Hr) as Hi.
  split; [done|].
  rewrite (parseSOAPArrayType_found_ref _ _ _ _ _ _ _ _ Hp Hr Hl), Hf.
  assert (alter (withFixed (Value a)) i (Attributes c)
          = <[i := withFixed (Value a) v]> (Attributes c)) as Halter.
  { apply list_eq. intros j. destruct (decide (i = j)) as [->|Hne].
    - rewrite list_lookup_alter_eq, list_lookup_insert_eq, Hi; [done|].
      by eapply lookup_lt_Some.
    - by rewrite list_lookup_alter_ne, list_lookup_insert_ne. }
  unfold print, store, setFixed, c'; simpl. by rewrite Halter.
Qed.


(** C9: [parseSOAPArrayType] reads the first attribute whose local name
    is [arrayType] and no later one: what it finds is decided by that
    attribute alone, and when it carries no [wsdl:arrayType] attribute
    the type is returned unchanged whatever attributes follow. *)
Theorem parseSOAPArrayType_first_arrayType_only s p c pre v post e w :
  complexTypes w !! p = Some c ->
  Attributes c = pre ++ v :: post ->
  Forall (fun x => Local (at_Name x) <> "arrayType") pre ->
  Local (at_Name v) = "arrayType" ->
  arrayTypeRef (Attributes c) =
    match List.find isWsdlArrayType (at_Attr v) with
    | Some a => Some (length pre, v, a)
    | None => None
    end /\
  (List.find isWsdlArrayType (at_Attr v) = None ->
   parseSOAPArrayType s (PComplex p) e w = Ok (PComplex p, w)).
Proof.
  intros Hp Hc Hpre Hv.
  pose proof (arrayTypeRef_first pre v post Hpre Hv) as Hr.
  rewrite <- Hc in Hr. split; [done|]. intros Hnone.
  rewrite Hnone in Hr.
  unfold parseSOAPArrayType, mbind, M_bind, getComplex, lift.
  by rewrite Hp, Hr.
Qed.

End Properties.

(** ** The properties on the small type graph *)

Section Instances.
Import example.
#[local] Existing Instance demo.regexpLib.
#[local] Existing Instance demo.xsdLib.
#[local] Existing Instance genOk.


(** On [Root], which has no base, the loop body never runs: the
    wildcard element of [Root] keeps its type and nothing is replaced,
    although [Root] is the first complex type of its chain that holds a
    wildcard element. *)
Lemma overrideWildcardType_skips_type_without_base :
  complexTypes world !! 5%positive = Some Root /\
  hasWildcard Root = true /\
  exists w',
    overrideWildcardType 5%positive int verbose world = Ok (5%positive, w') /\
    complexTypes w' !! 5%positive = Some Root /\
    Elements Root <> overridden (retype anyEl int) (Elements Root).
Proof.
  split; [reflexivity|]. split; [reflexivity|].
  eexists. split; [vm_compute; reflexivity|].
  split; [reflexivity|]. vm_compute. discriminate.
Qed.

Lemma overrideWildcardType_override_witness :
  climbs world (PComplex 1%positive) 0 (PComplex 1%positive) /\
  exists els',
    overrideWildcardType 1%positive int verbose world =
    Ok (1%positive,
        store (print world
                 (emitted 3 verbose (OverridingWildcard "Array" "anyType" "int")))
          1%positive (setElements Array els')) /\
    els' !! 0%nat = Some (retype anyEl int).
Proof.
  assert (Hc : climbs world (PComplex 1%positive) 0 (PComplex 1%positive))
    by constructor.
  split; [exact Hc|].
  destruct (overrideWildcardType_override world verbose 1%positive Array 0
              1%positive Array anyEl int (xsName "anyType") (xsName "int")
              Hc ltac:(vm_compute; lia) eq_refl eq_refl
              ltac:(discriminate) eq_refl eq_refl eq_refl)
    as (els' & Hrun & Hrepl & _).
  exists els'. split; [exact Hrun|].
  exact (proj2 (Hrepl eq_refl) 0%nat anyEl eq_refl).
Defined.




(** [GhostArray] refers to [tns:Ghost[]], which no schema here
    declares. With a logger, the type comes back with the [Fixed] value
    of its attribute set; without logger, nothing is printed. And for
    the reference [xs:] of [NamelessArray], whose local name is empty,
    nothing is printed even with a logger. *)
Lemma parseSOAPArrayType_unresolved_changes :
  (exists w' c',
     parseSOAPArrayType emptySchema (PComplex 6%positive) verbose world
     = Ok (PComplex 6%positive, w') /\
     complexTypes w' !! 6%positive = Some c' /\
     Fixed <$> Attributes c' = ["tns:Ghost[]"] /\
     Fixed <$> Attributes GhostArray = [EmptyString] /\
     complexTypes w' !! 6%positive <> complexTypes world !! 6%positive) /\
  (exists w',
     parseSOAPArrayType emptySchema (PComplex 6%positive) silent world
     = Ok (PComplex 6%positive, w') /\
     printed w' = []) /\
  (exists w',
     parseSOAPArrayType emptySchema (PComplex 8%positive) verbose world
     = Ok (PComplex 8%positive, w') /\
     printed w' = []).
Proof.
  split; [|split].
  - eexists _, _. split; [vm_compute; reflexivity|].
    split; [reflexivity|]. split; [reflexivity|]. split; [reflexivity|].
    vm_compute. discriminate.
  - eexists. split; [vm_compute; reflexivity|]. reflexivity.
  - eexists. split; [vm_compute; reflexivity|]. reflexivity.
Qed.

Lemma parseSOAPArrayType_unresolved_witness :
  arrayTypeRef (Attributes GhostArray)
  = Some (0%nat, arrayTypeOf "tns:Ghost[]", mkAttr (mkName wsdl "arrayType") "tns:Ghost[]") /\
  parseSOAPArrayType emptySchema (PComplex 6%positive) verbose world =
  Ok (PComplex 6%positive,
      mkWorld
        (<[6%positive :=
             mkComplexType (mkName tns "GhostArray") (PComplex 1%positive)
               [withFixed "tns:Ghost[]" (arrayTypeOf "tns:Ghost[]")] []]>
           (complexTypes world))
        (simpleTypes world)
        [(0%nat, CouldNotLookupItemType "Ghost" tns)]).
Proof.
  split; [reflexivity|].
  exact (proj2 (parseSOAPArrayType_unresolved emptySchema 6%positive GhostArray
                  0%nat (arrayTypeOf "tns:Ghost[]")
                  (mkAttr (mkName wsdl "arrayType") "tns:Ghost[]")
                  verbose world eq_refl eq_refl ltac:(discriminate) eq_refl)).
Defined.


Lemma parseSOAPArrayType_first_arrayType_only_witness :
  Attributes TwoArrayTypes = [idAttr] ++ plainArrayType :: [arrayTypeOf "xs:int[]"] /\
  parseSOAPArrayType schema (PComplex 7%positive) verbose world
  = Ok (PComplex 7%positive, world).
Proof.
  split; [reflexivity|].
  refine (proj2 (parseSOAPArrayType_first_arrayType_only schema 7%positive
                   TwoArrayTypes [idAttr] plainArrayType [arrayTypeOf "xs:int[]"]
                   verbose world eq_refl eq_refl _ eq_refl) eq_refl).
  constructor; [discriminate|constructor].
Defined.

(** *** Options *)

(** After [PackageName "a"] and [PackageName "b"] on the empty
    [Config], the option returned sets the package name back to [a], not
    to the empty name the [Config] had before the sequence. *)
Lemma Config_Option_does_not_revert_sequence :
  exists cfg previous,
    Config_Option emptyConfig [PackageName "a"; PackageName "b"]
    = (cfg, Some previous) /\
    pkgname (fst (apply previous cfg)) = "a" /\
    fst (apply previous cfg) <> emptyConfig.
Proof.
  eexists _, _. split; [reflexivity|]. split; [reflexivity|].
  simpl. intros Heq. discriminate (f_equal pkgname Heq).
Qed.

(** Two rules on the empty [Config]: dots and blanks are removed first,
    then every [a] becomes [_]. *)
Lemma ReplaceAllNames_installation_order_witness :
  exists f,
    allNameTransform
      (fst (Config_Option emptyConfig
              [ReplaceAllNames "[. ]" EmptyString; ReplaceAllNames "[a]" "_"]))
    = Some f /\
    f (mkName tns "a.b a") verbose world = Ok ("_b_", world).
Proof.
  destruct (ReplaceAllNames_installation_order emptyConfig
              "[. ]" EmptyString "[a]" "_") as (f & Hf & _ & Hrun).
  exists f. split; [exact Hf|].
  exact (Hrun _ _ (mkName tns "a.b a") verbose world eq_refl eq_refl eq_refl).
Defined.

(** *** The flattener *)


Example soapArrayToSlice_flattens :
  exists s w',
    soapArrayToSlice wrapper verbose world = Ok (s, w') /\
    expr s = intSlice /\ fn_name <$> methods s = ["MarshalXML"; "UnmarshalXML"].
Proof. eexists _, _. split; [vm_compute; reflexivity|]. split; reflexivity. Qed.



End Instances.

(** ** Further properties of the option system *)

Section MoreOptions.
Context `{GenLib} `{RegexpLib} `{XsdLib}.

Lemma Config_Option_fst cfg opts :
  fst (Config_Option cfg opts) = applyAll cfg opts.
Proof.
  unfold Config_Option, applyAll.
  generalize (@None Option). revert cfg.
  induction opts as [|opt opts IH]; intros cfg previous; [done|].
  simpl. destruct (apply opt cfg) as [cfg' previous'] eqn:Ha. simpl.
  by rewrite IH.
Qed.

Lemma Config_Option_cons cfg opt opts previous :
  foldl (fun '(cfg, previous) opt =>
           let '(cfg', previous') := apply opt cfg in (cfg', Some previous'))
        (cfg, previous) (opt :: opts)
  = Config_Option cfg (opt :: opts).
Proof. unfold Config_Option. simpl. by destruct (apply opt cfg). Qed.

(** X1: one call of [Config.Option] with two lists of options, the
    second not empty, is the call with the first list followed by the
    call with the second: same [Config], same option returned. *)
Theorem Config_Option_app cfg opts opt opts' :
  Config_Option cfg (opts ++ opt :: opts') =
  Config_Option (fst (Config_Option cfg opts)) (opt :: opts').
Proof.
  unfold Config_Option at 1. rewrite foldl_app.
  fold (Config_Option cfg opts).
  destruct (Config_Option cfg opts) as [cfg' previous].
  apply Config_Option_cons.
Qed.

(** X2: the option returned by an option undoes it, and the option
    returned by that undoing option does it again: applied after the
    undo it brings back the [Config] the first option had left. *)
Theorem Option_undo_redo opt cfg :
  fst (apply (snd (apply opt cfg)) (fst (apply opt cfg))) = cfg /\
  fst (apply (snd (apply (snd (apply opt cfg)) (fst (apply opt cfg)))) cfg)
  = fst (apply opt cfg).
Proof.
  split; [apply apply_inverse|].
  destruct cfg, opt; try destruct p; reflexivity.
Qed.

Lemma applyEach_applyAll opts cfg undo :
  applyAll (fst (applyEach cfg opts undo)) (snd (applyEach cfg opts undo))
  = applyAll cfg undo.
Proof.
  revert cfg undo. induction opts as [|opt opts IH]; intros cfg undo; [done|].
  simpl. destruct (apply opt cfg) as [cfg' previous] eqn:Ha.
  rewrite IH. unfold applyAll. simpl.
  pose proof (apply_inverse opt cfg) as Hinv. rewrite Ha in Hinv. simpl in Hinv.
  by rewrite Hinv.
Qed.

(** X3: a caller that applies options one at a time and keeps the
    option each one returns restores the [Config] it started from by
    applying the kept options latest first, whatever the options. *)
Theorem applyEach_undo cfg opts :
  applyAll (fst (applyEach cfg opts [])) (snd (applyEach cfg opts [])) = cfg.
Proof. by rewrite applyEach_applyAll. Qed.

(** *** Chains of name rules *)

Lemma replaceAllNames_unfold prev pat repl name e w :
  replaceAllNames prev pat repl name e w =
  (s ← runPrev prev name; applyRule pat repl s) e w.
Proof.
  unfold replaceAllNames, applyRule, mbind, M_bind.
  destruct (runPrev prev name e w) as [[s w']| |]; [|done..].
  by destruct (Compile pat).
Qed.

Lemma applyAll_cons cfg opt opts :
  applyAll cfg (opt :: opts) = applyAll (fst (apply opt cfg)) opts.
Proof. reflexivity. Qed.

Lemma applyAll_rules_runPrev rules cfg name e w :
  runPrev
    (allNameTransform
       (applyAll cfg ((fun r => ReplaceAllNames r.1 r.2) <$> rules))) name e w
  = (s0 ← runPrev (allNameTransform cfg) name; applyRules rules s0) e w.
Proof.
  revert cfg w. induction rules as [|[pat repl] rules IH]; intros cfg w.
  - simpl. unfold mbind, M_bind, mret, M_ret.
    by destruct (runPrev (allNameTransform cfg) name e w) as [[s w']| |].
  - rewrite fmap_cons, applyAll_cons, IH. cbn [applyRules]. unfold mbind, M_bind.
    destruct cfg; cbn [apply fst setName allNameTransform runPrev].
    rewrite replaceAllNames_unfold. unfold mbind, M_bind. simpl.
    by destruct (runPrev _ name e w) as [[s w']| |].
Qed.

Lemma substAll_spec rules regs s e w :
  Forall2 (fun rule reg => Compile rule.1 = inl reg.1 /\ rule.2 = reg.2)
    rules regs ->
  applyRules rules s e w = Ok (substAll regs s, w).
Proof.
  intros Hc. revert s. induction Hc as [|[pat repl] [reg repl'] rules regs [Hp Hr] _ IH];
    intros s; [done|].
  simpl in *. subst repl'. unfold mbind, M_bind, applyRule. rewrite Hp.
  unfold mret, M_ret. apply IH.
Qed.

(** X4: any number of rules installed with [ReplaceAllNames] run in the
    order of their installation, after the chain that was there before
    (the local name when there was none); when all patterns compile and
    no chain was there, the name is the local name put through the
    substitutions one after the other and nothing is printed. *)
Theorem ReplaceAllNames_chain rules cfg name e w :
  let cfg' :=
    fst (Config_Option cfg ((fun r => ReplaceAllNames r.1 r.2) <$> rules)) in
  runPrev (allNameTransform cfg') name e w
  = (s0 ← runPrev (allNameTransform cfg) name; applyRules rules s0) e w /\
  (forall regs,
     allNameTransform cfg = None ->
     Forall2 (fun rule reg => Compile rule.1 = inl reg.1 /\ rule.2 = reg.2)
       rules regs ->
     runPrev (allNameTransform cfg') name e w
     = Ok (substAll regs (Local name), w)).
Proof.
  intros cfg'. unfold cfg'. rewrite Config_Option_fst.
  split; [apply applyAll_rules_runPrev|]. intros regs Hprev Hc.
  rewrite applyAll_rules_runPrev, Hprev. unfold mbind, M_bind. simpl.
  by apply substAll_spec.
Qed.

(** X5: a rule whose pattern does not compile takes no action on the
    name: the transform installed by [ReplaceAllNames] returns what the
    chain before it returns, and passes one message to [logf]. *)
Theorem ReplaceAllNames_invalid_pattern cfg pat repl err name e w s w1 :
  Compile pat = inr err ->
  runPrev (allNameTransform cfg) name e w = Ok (s, w1) ->
  exists f,
    allNameTransform (fst (apply (ReplaceAllNames pat repl) cfg)) = Some f /\
    f name e w =
    Ok (s, print w1 (emitted 0 e (InvalidRegexReplaceAllNames pat))).
Proof.
  intros Hc Hprev. destruct cfg; simpl in *.
  eexists; split; [reflexivity|].
  unfold replaceAllNames, mbind, M_bind. rewrite Hprev, Hc.
  by rewrite logf_emitted.
Qed.

(** X6: type transforms run in the order of their installation:
    after [ProcessTypes f] and then [HandleSOAPArrayType], the
    pre-processing step runs the transform installed before, then [f]
    on its result, then [parseSOAPArrayType] on the result of [f]. *)
Theorem ProcessTypes_then_HandleSOAPArrayType cfg fn :
  exists g,
    preprocessType
      (fst (Config_Option cfg [ProcessTypes fn; HandleSOAPArrayType]))
    = Some g /\
    forall s t e w,
      g s t e w =
      (t0 ← runPrevType (preprocessType cfg) s t;
       t1 ← fn s t0;
       parseSOAPArrayType s t1) e w.
Proof.
  destruct cfg; simpl. eexists; split; [reflexivity|]. intros s t e w.
  unfold processTypes, runPrevType, mbind, M_bind. simpl.
  by destruct (match preprocessType0 with Some f => f s t | None => mret t end e w)
    as [[t0 w0]| |].
Qed.

Lemma obtainable_keepsNameSlots opt :
  obtainable opt -> keepsNameSlots opt = true.
Proof.
  induction 1 as [opt Hex|opt cfg _ IH]; [by destruct opt|].
  destruct opt; try done; by destruct p.
Qed.

(** X18: the name-transform slots for types, elements and attributes
    are never written through the package: whatever options a user
    applies, exported ones or options returned to him, the three slots
    keep the value they had, nil for a new [Config]. *)
Theorem name_slots_never_set cfg opts :
  Forall obtainable opts ->
  typeNameTransform (applyAll cfg opts) = typeNameTransform cfg /\
  elemNameTransform (applyAll cfg opts) = elemNameTransform cfg /\
  attrNameTransform (applyAll cfg opts) = attrNameTransform cfg.
Proof.
  intros Hopts. revert cfg.
  induction Hopts as [|opt opts Hopt _ IH]; intros cfg; [done|].
  rewrite applyAll_cons.
  destruct (IH (fst (apply opt cfg))) as (-> & -> & ->).
  apply obtainable_keepsNameSlots in Hopt.
  destruct cfg, opt; try done; destruct p; done.
Qed.

End MoreOptions.

(** ** Filters *)

Section MoreFilters.
Context `{GenLib} `{RegexpLib} `{XsdLib}.

Lemma existsb_eqb_elem (x : string) (names : list string) :
  existsb (String.eqb x) names = bool_decide (x ∈ names).
Proof.
  induction names as [|n names IH]; simpl.
  - done.
  - rewrite IH. destruct (String.eqb_spec x n) as [->|Hne]; simpl.
    + symmetry. apply bool_decide_eq_true_2. by left.
    + apply bool_decide_ext. rewrite elem_of_cons.
      split; [by right|by intros [?|?]].
Qed.

Lemma keep_None {A} (ptr : A -> Any) (l : list A) e w :
  keep None ptr l e w = Ok (l, w).
Proof.
  induction l as [|x l IH]; [done|].
  cbn [keep]. unfold mbind, M_bind. simpl. by rewrite IH.
Qed.

Lemma keep_ignoreAttributes names (l : list Attribute) e w :
  keep (Some (ignoreAttributes names)) AnyAttribute l e w
  = Ok (filter (fun a => Local (at_Name a) ∉ names) l, w).
Proof.
  induction l as [|x l IH]; [done|].
  cbn [keep]. unfold mbind, M_bind. simpl. rewrite IH, existsb_eqb_elem.
  rewrite filter_cons. unfold mret, M_ret.
  case_bool_decide; by case_decide.
Qed.

Lemma keep_ignoreElements names (l : list Element) e w :
  keep (Some (ignoreElements names)) AnyElement l e w
  = Ok (filter (fun el => Local (el_Name el) ∉ names) l, w).
Proof.
  induction l as [|x l IH]; [done|].
  cbn [keep]. unfold mbind, M_bind. simpl. rewrite IH, existsb_eqb_elem.
  rewrite filter_cons. unfold mret, M_ret.
  case_bool_decide; by case_decide.
Qed.

(** X7: with the filters of [IgnoreAttributes] and [IgnoreElements]
    installed, [filterFields] returns the attributes and the elements
    of the type whose local name is not in the respective list, in
    their order, and neither panics, prints nor writes. *)
Theorem filterFields_ignored cfg names names' t c e w :
  complexTypes w !! t = Some c ->
  filterFields
    (fst (Config_Option cfg [IgnoreAttributes names; IgnoreElements names']))
    t e w
  = Ok ((filter (fun a => Local (at_Name a) ∉ names) (Attributes c),
         filter (fun el => Local (el_Name el) ∉ names') (Elements c)), w).
Proof.
  intros Ht. destruct cfg; simpl.
  unfold filterFields, mbind, M_bind, getComplex, lift. simpl.
  rewrite Ht, keep_ignoreAttributes, Ht, keep_ignoreElements. done.
Qed.

(** X8: filters replace one another: after two [IgnoreAttributes] only
    the names of the second are dropped, and without element filter
    every element is kept. *)
Theorem filterFields_last_filter_only cfg names1 names2 t c e w :
  complexTypes w !! t = Some c ->
  filterElements cfg = None ->
  filterFields
    (fst (Config_Option cfg [IgnoreAttributes names1; IgnoreAttributes names2]))
    t e w
  = Ok ((filter (fun a => Local (at_Name a) ∉ names2) (Attributes c),
         Elements c), w).
Proof.
  intros Ht He. destruct cfg; simpl in *. subst.
  unfold filterFields, mbind, M_bind, getComplex, lift. simpl.
  rewrite Ht, keep_ignoreAttributes, Ht, keep_None. done.
Qed.

(** X9: the filter of [OnlyTypes] excludes the types whose local name
    the joined pattern does not match; when the pattern does not
    compile it excludes no type and passes one message to [logf]; a
    value that is no type makes it panic. *)
Theorem OnlyTypes_filter cfg patterns :
  exists f,
    filterTypes (fst (apply (OnlyTypes patterns) cfg)) = Some f /\
    (forall reg t n e w,
       Compile (strings.Join patterns "|") = inl reg ->
       XMLName w t = Some n ->
       f (AnyType t) e w = Ok (negb (MatchString reg (Local n)), w)) /\
    (forall err t e w,
       Compile (strings.Join patterns "|") = inr err ->
       t <> Nil ->
       f (AnyType t) e w =
       Ok (false,
           print w (emitted 0 e
                      (InvalidRegexOnlyTypes (strings.Join patterns "|") err)))) /\
    (forall a el e w,
       f (AnyAttribute a) e w = Panic /\ f (AnyElement el) e w = Panic /\
       f (AnyType Nil) e w = Panic /\ f AnyOther e w = Panic).
Proof.
  destruct cfg; simpl. eexists; split; [reflexivity|].
  unfold onlyTypes. split; [|split].
  - intros reg t n e w Hc Hn. destruct t; [done|..];
      rewrite Hc; unfold mbind, M_bind, lift; by rewrite Hn.
  - intros err t e w Hc Ht. destruct t; [done|..];
      rewrite Hc; unfold mbind, M_bind; by rewrite logf_emitted.
  - done.
Qed.

End MoreFilters.

(** ** Further properties of the SOAP array resolver *)

Section MoreResolver.
Context `{GenLib} `{RegexpLib} `{XsdLib}.






Lemma find_overridden v els :
  Wildcard v = true -> List.find Wildcard (overridden v els) = Some v.
Proof.
  intros Hv. unfold overridden. destruct (existsb Wildcard els) eqn:He.
  - induction els as [|u els IH]; [done|]. simpl in *.
    destruct (Wildcard u) eqn:Hu; simpl; [by rewrite Hv|].
    rewrite Hu. by apply IH.
  - induction els as [|u els IH]; simpl in *; [by rewrite Hv|].
    apply orb_false_elim in He as [Hu He]. rewrite Hu. by apply IH.
Qed.

Lemma existsb_false_lookup {A} (f : A -> bool) (l : list A) i u :
  existsb f l = false -> l !! i = Some u -> f u = false.
Proof.
  revert i. induction l as [|a l IH]; intros i He Hi; [done|].
  simpl in He. apply orb_false_elim in He as [Ha He].
  destruct i; simplify_eq/=; eauto.
Qed.

Lemma overridden_idempotent v els :
  Wildcard v = true -> overridden v (overridden v els) = overridden v els.
Proof.
  intros Hv.
  assert (Hex : existsb Wildcard (overridden v els) = true)
    by (eapply find_Some_existsb, find_overridden, Hv).
  unfold overridden at 1. rewrite Hex.
  apply list_eq. intros i. rewrite list_lookup_fmap.
  destruct (overridden v els !! i) as [u|] eqn:Hu; [|done]. simpl.
  destruct (Wildcard u) eqn:Hw; [|done]. f_equal.
  unfold overridden in Hu. destruct (existsb Wildcard els) eqn:He.
  - rewrite list_lookup_fmap in Hu. destruct (els !! i) as [u'|]; [|done].
    simpl in Hu. destruct (Wildcard u') eqn:Hw'; simplify_eq; [done|congruence].
  - apply lookup_app_Some in Hu as [Hu|[_ Hu]].
    + pose proof (existsb_false_lookup _ _ _ _ He Hu). congruence.
    + destruct (i - length els)%nat; by simplify_eq/=.
Qed.

Lemma retype_retype v base : retype (retype v base) base = retype v base.
Proof. reflexivity. Qed.

(** How [XMLName] reads a world in which the type at [t] got another
    element list. *)
Lemma XMLName_store_setElements w t ct els ds x :
  complexTypes w !! t = Some ct ->
  XMLName (store (print w ds) t (setElements ct els)) x = XMLName w x.
Proof.
  intros Ht. destruct x as [|p|p|b]; simpl; try done.
  destruct (decide (t = p)) as [->|Hne].
  - by rewrite lookup_insert_eq, Ht.
  - by rewrite lookup_insert_ne.
Qed.

(** X11: overriding twice is overriding once: after a call of
    [overrideWildcardType] that found its template, a second call with
    the same item type finds the retyped template on the type itself
    and leaves every object of the type graph as the first call left
    it. *)
Theorem overrideWildcardType_twice w e t ct n a ca v base from to :
  climbs w (PComplex t) n (PComplex a) -> (n < fuel e)%nat ->
  complexTypes w !! t = Some ct ->
  complexTypes w !! a = Some ca -> ct_Base ca <> Nil ->
  List.find Wildcard (Elements ca) = Some v ->
  XMLName w (el_Type v) = Some from -> XMLName w base = Some to ->
  exists w1 w2,
    overrideWildcardType t base e w = Ok (t, w1) /\
    overrideWildcardType t base e w1 = Ok (t, w2) /\
    complexTypes w2 = complexTypes w1 /\ simpleTypes w2 = simpleTypes w1.
Proof.
  intros Hc Hn Ht Ha Hb Hv Hfrom Hto.
  pose proof (overrideWildcardType_found _ _ _ _ _ _ _ _ _ _ _
                Hc Hn Ht Ha Hb Hv Hfrom Hto) as Hrun1.
  assert (Hwild : Wildcard (retype v base) = true).
  { simpl. by apply find_some in Hv as [_ ?]. }
  assert (Hbase : ct_Base ct <> Nil).
  { inversion Hc; subst; congruence. }
  set (els1 := overridden (retype v base) (Elements ct)) in *.
  set (w1 := store _ t (setElements ct els1)) in *.
  assert (Ht1 : complexTypes w1 !! t = Some (setElements ct els1)).
  { unfold w1, store; simpl. by rewrite lookup_insert_eq. }
  assert (Hname : forall x, XMLName w1 x = XMLName w x).
  { intros x. by apply XMLName_store_setElements. }
  assert (Hc1 : climbs w1 (PComplex t) 0 (PComplex t)) by constructor.
  pose proof (overrideWildcardType_found w1 e t (setElements ct els1) 0 t
                (setElements ct els1) (retype v base) base to to
                Hc1 ltac:(lia) Ht1 Ht1 Hbase
                (find_overridden _ _ Hwild)
                ltac:(by rewrite Hname) ltac:(by rewrite Hname)) as Hrun2.
  eexists _, _. split; [exact Hrun1|]. split; [exact Hrun2|].
  simpl. split; [|done].
  rewrite retype_retype. unfold els1 at 2. rewrite (overridden_idempotent _ _ Hwild).
  by rewrite insert_insert_eq.
Qed.

Lemma sameButWildcards_refl els : sameButWildcards els els.
Proof. repeat split; try done; lia. Qed.




Lemma Base_store_setFixed w p c i val x :
  complexTypes w !! p = Some c ->
  Base (store w p (setFixed i val c)) x = Base w x.
Proof.
  intros Hp. destruct x as [|q|q|b]; simpl; try done.
  destruct (decide (p = q)) as [->|Hne].
  - by rewrite lookup_insert_eq, Hp.
  - by rewrite lookup_insert_ne.
Qed.

Lemma XMLName_store_setFixed w p c i val x :
  complexTypes w !! p = Some c ->
  XMLName (store w p (setFixed i val c)) x = XMLName w x.
Proof.
  intros Hp. destruct x as [|q|q|b]; simpl; try done.
  destruct (decide (p = q)) as [->|Hne].
  - by rewrite lookup_insert_eq, Hp.
  - by rewrite lookup_insert_ne.
Qed.

Lemma walk_store_setFixed n w p c i val x :
  complexTypes w !! p = Some c ->
  walk n (store w p (setFixed i val c)) x = walk n w x.
Proof.
  intros Hp. revert x. induction n as [|n IH]; intros x; [done|].
  cbn [walk]. rewrite (Base_store_setFixed _ _ _ _ _ _ Hp).
  destruct (Base w x) as [[|q|q|b]|]; try done;
    (destruct x as [|t|t|b']; try done; simpl;
     destruct (decide (p = t)) as [->|Hne];
     [rewrite lookup_insert_eq, Hp; simpl;
      destruct (List.find Wildcard (Elements c)); [done|apply IH]
     |rewrite lookup_insert_ne by done;
      destruct (complexTypes w !! t) as [ct|]; [|done];
      destruct (List.find Wildcard (Elements ct)); [done|apply IH]]).
Qed.

Lemma parseSOAPArrayType_resolves s p c i v a b n q cq tmpl from to e w :
  complexTypes w !! p = Some c ->
  arrayTypeRef (Attributes c) = Some (i, v, a) ->
  Local (Resolve (at_Scope v) (Value a)) <> EmptyString ->
  FindType s (normalize (Resolve (at_Scope v) (Value a))) = b -> b <> Nil ->
  climbs w (PComplex p) n (PComplex q) -> (n < fuel e)%nat ->
  complexTypes w !! q = Some cq -> ct_Base cq <> Nil ->
  List.find Wildcard (Elements cq) = Some tmpl ->
  XMLName w (el_Type tmpl) = Some from -> XMLName w b = Some to ->
  parseSOAPArrayType s (PComplex p) e w =
  Ok (PComplex p,
      mkWorld
        (<[p := mkComplexType (ct_Name c) (ct_Base c)
                  (<[i := withFixed (Value a) v]> (Attributes c))
                  (overridden (retype tmpl b) (Elements c))]>
           (complexTypes w))
        (simpleTypes w)
        (printed w ++
         emitted 3 e (OverridingWildcard (Local (ct_Name c))
                        (Local from) (Local to)))).
Proof.
  intros Hp Href Hfull Hfind Hb Hc Hn Hq Hbq Htmpl Hfrom Hto.
  rewrite (parseSOAPArrayType_found_ref _ _ _ _ _ _ _ _ Hp Href Hfull), Hfind.
  assert (Hwalk : walk (fuel e) w (PComplex p) = Ok (FoundWildcard tmpl)).
  { replace (fuel e) with (n + S (fuel e - n - 1))%nat by lia.
    by rewrite (walk_climbs _ _ _ _ _ Hc), (walk_found _ _ _ _ _ Hq Hbq Htmpl). }
  assert (Hover : overrideWildcardType p b e (store w p (setFixed i (Value a) c))
    = Ok (p, store (print (store w p (setFixed i (Value a) c))
                      (emitted 3 e (OverridingWildcard (Local (ct_Name c))
                                      (Local from) (Local to))))
               p (setElements (setFixed i (Value a) c)
                    (overridden (retype tmpl b) (Elements c))))).
  { unfold overrideWildcardType, mbind, M_bind, walkM.
    rewrite (walk_store_setFixed _ _ _ _ _ _ _ Hp), Hwalk.
    assert (Hlk : complexTypes (store w p (setFixed i (Value a) c)) !! p
                  = Some (setFixed i (Value a) c))
      by (simpl; by rewrite lookup_insert_eq).
    unfold getComplex, lift. rewrite Hlk.
    rewrite (XMLName_store_setFixed _ _ _ _ _ (el_Type tmpl) Hp), Hfrom.
    rewrite (XMLName_store_setFixed _ _ _ _ _ b Hp), Hto.
    rewrite debugf_emitted.
    pose proof (replaceWildcards_overridden (retype tmpl b) (Elements c)) as Hr.
    change (Elements (setFixed i (Value a) c)) with (Elements c).
    destruct (replaceWildcards 0 (Elements c) (retype tmpl b) (Elements c) false)
      as [els' replaced].
    unfold mret, M_ret, putComplex. simpl. by rewrite Hr. }
  assert (Halter : alter (withFixed (Value a)) i (Attributes c)
          = <[i := withFixed (Value a) v]> (Attributes c)).
  { pose proof (arrayTypeRef_lookup _ _ _ _ Href) as Hi.
    apply list_eq. intros j. destruct (decide (i = j)) as [->|Hne].
    - rewrite list_lookup_alter_eq, list_lookup_insert_eq, Hi; [done|].
      by eapply lookup_lt_Some.
    - by rewrite list_lookup_alter_ne, list_lookup_insert_ne. }
  destruct b; [done|..]; rewrite Hover; unfold store, print, setElements, setFixed;
    simpl; by rewrite insert_insert_eq, Halter.
Qed.


Lemma arrayTypeRef_withFixed attrs i v a val :
  arrayTypeRef attrs = Some (i, v, a) ->
  arrayTypeRef (<[i := withFixed val v]> attrs) = Some (i, withFixed val v, a).
Proof.
  unfold arrayTypeRef. intros Hr.
  destruct (list_find _ attrs) as [[j u]|] eqn:Hf; [|done].
  destruct (List.find _ (at_Attr u)) as [a'|] eqn:Ha; [|done]. simplify_eq.
  apply list_find_Some in Hf as (Hi & Hv & Hbefore).
  assert (list_find (fun v => Local (at_Name v) = "arrayType")
            (<[i := withFixed val v]> attrs) = Some (i, withFixed val v)) as ->.
  { apply list_find_Some. split.
    - apply list_lookup_insert_eq. by eapply lookup_lt_Some.
    - split; [done|]. intros j y Hj Hlt.
      rewrite list_lookup_insert_ne in Hj by lia. by eapply Hbefore. }
  simpl. by rewrite Ha.
Qed.

(** X17: pre-processing a type twice is pre-processing it once: after a
    call of [parseSOAPArrayType] that resolved the reference and
    overrode the wildcard, a second call on the same type leaves every
    object of the type graph as the first call left it. *)
Theorem parseSOAPArrayType_twice s p c i v a b n q cq tmpl from to e w :
  complexTypes w !! p = Some c ->
  arrayTypeRef (Attributes c) = Some (i, v, a) ->
  Local (Resolve (at_Scope v) (Value a)) <> EmptyString ->
  FindType s (normalize (Resolve (at_Scope v) (Value a))) = b -> b <> Nil ->
  climbs w (PComplex p) n (PComplex q) -> (n < fuel e)%nat ->
  complexTypes w !! q = Some cq -> ct_Base cq <> Nil ->
  List.find Wildcard (Elements cq) = Some tmpl ->
  XMLName w (el_Type tmpl) = Some from -> XMLName w b = Some to ->
  exists w1 w2,
    parseSOAPArrayType s (PComplex p) e w = Ok (PComplex p, w1) /\
    parseSOAPArrayType s (PComplex p) e w1 = Ok (PComplex p, w2) /\
    complexTypes w2 = complexTypes w1 /\ simpleTypes w2 = simpleTypes w1.
Proof.
  intros Hp Href Hfull Hfind Hb Hc Hn Hq Hbq Htmpl Hfrom Hto.
  pose proof (parseSOAPArrayType_resolves _ _ _ _ _ _ _ _ _ _ _ _ _ _ _
                Hp Href Hfull Hfind Hb Hc Hn Hq Hbq Htmpl Hfrom Hto) as Hrun1.
  assert (Hwild : Wildcard (retype tmpl b) = true).
  { simpl. by apply find_some in Htmpl as [_ ?]. }
  assert (Hbase : ct_Base c <> Nil).
  { inversion Hc; subst; congruence. }
  set (c1 := mkComplexType (ct_Name c) (ct_Base c)
               (<[i := withFixed (Value a) v]> (Attributes c))
               (overridden (retype tmpl b) (Elements c))) in *.
  set (w1 := mkWorld (<[p := c1]> (complexTypes w)) _ _) in *.
  assert (Hp1 : complexTypes w1 !! p = Some c1)
    by (unfold w1; simpl; by rewrite lookup_insert_eq).
  assert (Hname : forall x, XMLName w1 x = XMLName w x).
  { intros x. destruct x as [|t|t|b']; simpl; try done.
    destruct (decide (p = t)) as [->|Hne].
    - by rewrite lookup_insert_eq, Hp.
    - by rewrite lookup_insert_ne. }
  pose proof (parseSOAPArrayType_resolves s p c1 i (withFixed (Value a) v) a b
                0 p c1 (retype tmpl b) to to e w1 Hp1
                (arrayTypeRef_withFixed _ _ _ _ _ Href) Hfull Hfind Hb
                (climbs_here _ _) ltac:(lia) Hp1 Hbase
                (find_overridden _ _ Hwild)
                ltac:(by rewrite Hname) ltac:(by rewrite Hname)) as Hrun2.
  eexists _, _. split; [exact Hrun1|]. split; [exact Hrun2|].
  simpl. split; [|done].
  rewrite insert_insert_eq, list_insert_insert_eq, retype_retype.
  by rewrite (overridden_idempotent _ _ Hwild).
Qed.


Lemma walk_short w x n y k :
  climbs w x n y -> (k <= n)%nat -> walk k w x = OutOfFuel.
Proof.
  intros Hc. revert k. induction Hc as [|p c n y Hp Hb Hw _ IH]; intros k Hk.
  { by replace k with 0%nat by lia. }
  destruct k as [|k]; [done|].
  apply find_existsb in Hw. cbn [walk Base].
  rewrite Hp; cbn [fmap option_fmap option_map]. rewrite Hw.
  destruct (ct_Base c); [done|apply IH; lia..].
Qed.

(** X19: on a base chain that comes back to the type it started from
    without meeting a wildcard element, the loop of
    [overrideWildcardType] does not end: however many iterations it is
    given, the call has not returned. *)
Theorem overrideWildcardType_cycle w t n base e :
  climbs w (PComplex t) (S n) (PComplex t) ->
  walk (fuel e) w (PComplex t) = OutOfFuel /\
  overrideWildcardType t base e w = OutOfFuel.
Proof.
  intros Hc.
  assert (Hwalk : forall k, walk k w (PComplex t) = OutOfFuel).
  { induction k as [k IH] using lt_wf_ind.
    destruct (decide (k <= S n)%nat) as [Hle|Hgt].
    - by eapply walk_short.
    - replace k with (S n + S (k - S n - 1))%nat by lia.
      rewrite (walk_climbs _ _ _ _ _ Hc). apply IH. lia. }
  split; [done|].
  unfold overrideWildcardType, mbind, M_bind, walkM. by rewrite Hwalk.
Qed.

End MoreResolver.

(** ** Further properties of the struct flattener *)

Section MoreFlattener.
Context `{GenLib} `{RegexpLib} `{XsdLib}.
Import strings.

Lemma elem_of_flush cur rest f :
  f ∈ flush cur rest -> (cur <> [] /\ f = rev cur) \/ f ∈ rest.
Proof.
  destruct cur as [|a cur]; simpl; [by right|].
  intros [->|Hf]%elem_of_cons; [by left|by right].
Qed.

Lemma fields_words l :
  forall cur f, f ∈ fields l cur ->
    f <> [] /\
    forall a, a ∈ f -> a ∈ cur \/ (a ∈ l /\ space1 a = false).
Proof.
  remember (length l) as n eqn:Hn. revert l Hn.
  induction n as [n IH] using lt_wf_ind. intros l -> cur f Hf.
  assert (Hflush : forall rest, f ∈ flush cur rest ->
            (f <> [] /\ forall a, a ∈ f -> a ∈ cur) \/ f ∈ rest).
  { intros rest [[Hc ->]|Hr]%elem_of_flush; [left|by right].
    split; [by destruct cur using rev_ind; [|rewrite rev_app_distr]|].
    intros a Ha. apply list_elem_of_In, in_rev. by apply list_elem_of_In. }
  assert (Hstart : forall l', (length l' < length l)%nat ->
            (forall a, a ∈ l' -> a ∈ l) ->
            f ∈ flush cur (fields l' []) ->
            f <> [] /\ forall a, a ∈ f -> a ∈ cur \/ (a ∈ l /\ space1 a = false)).
  { intros l' Hlen Hsub [[Hne Hin]|Hr]%Hflush; [split; [done|by left; auto]|].
    destruct (IH _ Hlen l' eq_refl [] f Hr) as [Hne Hin]. split; [done|].
    intros a Ha. destruct (Hin a Ha) as [?%elem_of_nil|[? ?]]; [done|].
    right. auto. }
  assert (Hpush : forall a l1, l = a :: l1 -> space1 a = false ->
            f ∈ fields l1 (a :: cur) ->
            f <> [] /\ forall a, a ∈ f -> a ∈ cur \/ (a ∈ l /\ space1 a = false)).
  { intros a l1 -> Ha Hr.
    destruct (IH (length l1) ltac:(simpl; lia) l1 eq_refl (a :: cur) f Hr)
      as [Hne Hin]. split; [done|].
    intros b Hb. destruct (Hin b Hb) as [[->|?]%elem_of_cons|[? ?]].
    - right. split; [by left|done].
    - by left.
    - right. split; [by right|done]. }
  destruct l as [|a l1].
  { simpl in Hf. apply Hflush in Hf as [[Hne Hin]|?%elem_of_nil]; [|done].
    split; [done|]. intros a Ha. left. auto. }
  cbn [fields] in Hf. destruct (space1 a) eqn:Hsp1.
  { apply (Hstart l1); [simpl; lia| |done]. intros b Hb. by right. }
  destruct l1 as [|b l2]; [by eapply Hpush|].
  destruct (space2 a b).
  { apply (Hstart l2); [simpl; lia| |done]. intros c Hc. by do 2 right. }
  destruct l2 as [|c l3]; [by eapply Hpush|].
  destruct (space3 a b c).
  { apply (Hstart l3); [simpl; lia| |done]. intros d Hd. by do 3 right. }
  by eapply Hpush.
Qed.

Lemma splitByte_head sep l part rest :
  splitByte sep l = part :: rest ->
  forall a, a ∈ part -> a ∈ l /\ a <> sep.
Proof.
  revert part rest. induction l as [|b l IH]; intros part rest; simpl.
  { intros [= <- <-] a ?%elem_of_nil. done. }
  case_bool_decide as Hb.
  { intros [= <- <-] a ?%elem_of_nil. done. }
  destruct (splitByte sep l) as [|h t] eqn:Hs.
  - intros [= <- <-] a ->%list_elem_of_singleton. split; [by left|done].
  - intros [= <- <-] a [->|Ha]%elem_of_cons; [split; [by left|done]|].
    destruct (IH h t eq_refl a Ha). split; [by right|done].
Qed.

Lemma Fields_words tag part rest w :
  Split tag "," = part :: rest -> w ∈ Fields part -> wordOf tag w.
Proof.
  unfold Split, Fields. intros Hs Hw.
  destruct (splitByte "," (list_ascii_of_string tag)) as [|p ps] eqn:Hp; [done|].
  simpl in Hs. injection Hs as <- <-.
  rewrite list_ascii_of_string_of_list_ascii in Hw.
  apply list_elem_of_fmap in Hw as (f & -> & Hf).
  destruct (fields_words p [] f Hf) as [Hne Hin]. split.
  - intros Hempty. apply Hne.
    by rewrite <- (list_ascii_of_string_of_list_ascii f), Hempty.
  - intros a Ha. rewrite list_ascii_of_string_of_list_ascii in Ha.
    destruct (Hin a Ha) as [?%elem_of_nil|[Hap Hsp]]; [done|].
    destruct (splitByte_head _ _ _ _ Hp a Hap). done.
Qed.

(** X14: the name read from the tag of the field has a local name that
    is the sentinel [,any] or a word of the tag, and a name space that
    is empty or a word of the tag. A word holds no comma, so no tag can
    yield the sentinel by accident, and the local name is never
    empty. *)
Theorem xmltagOf_words tag :
  (Local (xmltagOf tag) = ",any" \/ wordOf tag (Local (xmltagOf tag))) /\
  (Space (xmltagOf tag) = EmptyString \/ wordOf tag (Space (xmltagOf tag))) /\
  Local (xmltagOf tag) <> EmptyString /\
  (wordOf tag (Local (xmltagOf tag)) -> Local (xmltagOf tag) <> ",any").
Proof.
  assert (Hsent : forall s, wordOf tag s -> s <> ",any").
  { intros s [_ Hw] ->. destruct (Hw ","%char) as (_ & Hc & _); [by left|done]. }
  assert (Hmain :
    (Local (xmltagOf tag) = ",any" \/ wordOf tag (Local (xmltagOf tag))) /\
    (Space (xmltagOf tag) = EmptyString \/ wordOf tag (Space (xmltagOf tag)))).
  { unfold xmltagOf. case_bool_decide; [by split; left|].
    destruct (Split tag ",") as [|part rest] eqn:Hs; [by split; left|].
    pose proof (fun w => Fields_words tag part rest w Hs) as Hword.
    destruct (Fields part) as [|f1 [|f2 fs]] eqn:Hf; simpl.
    - by split; left.
    - split; [right|by left]. apply Hword. by left.
    - split; right.
      + destruct (last (f2 :: fs)) as [l|] eqn:Hl.
        * replace (last (f1 :: f2 :: fs)) with (Some l) by done. simpl.
          apply Hword. right. by apply last_Some_elem_of.
        * by apply last_None in Hl.
      + destruct (last (f1 :: f2 :: fs)); simpl; apply Hword; by left. }
  destruct Hmain as [Hl Hsp]. split; [done|]. split; [done|]. split.
  - destruct Hl as [->|[Hne _]]; done.
  - apply Hsent.
Qed.


(** X16: when both declarations are built, the spec is flattened to the
    type of its single field, [MarshalXML] and then [UnmarshalXML] are
    added after the methods it had, and flattening the result again
    returns it unchanged without any effect. *)
Theorem soapArrayToSlice_flattened s field len elt u m e w :
  expr s = StructType [field] ->
  Field_Type field = ArrayType len elt ->
  Decl (unmarshalFunc (name s) (xmltagOf (TagKey field "xml")) (ExprString elt))
  = inl u ->
  Decl (marshalFunc (name s)) = inl m ->
  let s' := mkSpec (name s) (ArrayType len elt) (methods s ++ [m; u]) in
  soapArrayToSlice s e w =
  Ok (s', print w (emitted 3 e (FlatteningStruct (name s) elt))) /\
  forall e' w', soapArrayToSlice s' e' w' = Ok (s', w').
Proof.
  intros Hs Hf Hu Hm s'. split; [|done].
  unfold soapArrayToSlice. rewrite Hs, Hf.
  unfold mbind, M_bind. rewrite debugf_emitted, Hu, Hm.
  unfold mret, M_ret, s'. by rewrite <- app_assoc.
Qed.

End MoreFlattener.

(** ** The further properties on the small type graph *)

Section MoreInstances.
Import example.
#[local] Existing Instance demo.regexpLib.
#[local] Existing Instance demo.xsdLib.
#[local] Existing Instance genOk.

Lemma ReplaceAllNames_chain_witness :
  runPrev
    (allNameTransform
       (fst (Config_Option emptyConfig
               [ReplaceAllNames "[. ]" EmptyString; ReplaceAllNames "[a]" "_";
                ReplaceAllNames "[_]" "-"])))
    (mkName tns "a.b a") verbose world
  = Ok ("-b-", world).
Proof.
  refine (proj2 (ReplaceAllNames_chain
                   [("[. ]", EmptyString); ("[a]", "_"); ("[_]", "-")]
                   emptyConfig (mkName tns "a.b a") verbose world)
            [(["."%char; " "%char], EmptyString); (["a"%char], "_");
             (["_"%char], "-")] eq_refl _).
  repeat constructor.
Defined.

Lemma ReplaceAllNames_invalid_pattern_witness :
  exists f,
    allNameTransform (fst (apply (ReplaceAllNames "(" "x") emptyConfig)) = Some f /\
    f (mkName tns "a.b") verbose world =
    Ok ("a.b", print world [(0%nat, InvalidRegexReplaceAllNames "(")]).
Proof.
  exact (ReplaceAllNames_invalid_pattern emptyConfig "(" "x" "unsupported pattern"
           (mkName tns "a.b") verbose world "a.b" world eq_refl eq_refl).
Defined.

Lemma filterFields_ignored_witness :
  filterFields
    (fst (Config_Option emptyConfig [IgnoreAttributes ["id"; "href"];
                                     IgnoreElements ["name"]]))
    2%positive verbose world
  = Ok (([arrayTypeOf "xs:int[]"], []), world).
Proof.
  etrans; [exact (filterFields_ignored emptyConfig ["id"; "href"] ["name"]
                    2%positive IntArray verbose world eq_refl)|].
  vm_compute. reflexivity.
Defined.

Lemma filterFields_last_filter_only_witness :
  filterFields
    (fst (Config_Option emptyConfig [IgnoreAttributes ["id"];
                                     IgnoreAttributes ["arrayType"]]))
    2%positive verbose world
  = Ok (([idAttr], [nameEl]), world).
Proof.
  etrans; [exact (filterFields_last_filter_only emptyConfig ["id"] ["arrayType"]
                    2%positive IntArray verbose world eq_refl eq_refl)|].
  vm_compute. reflexivity.
Defined.

(** [Coded] has no [I] in its name and is excluded; [IntArray] is
    kept. *)
Lemma OnlyTypes_filter_witness :
  exists f,
    filterTypes (fst (apply (OnlyTypes ["[I]"]) emptyConfig)) = Some f /\
    f (AnyType (PComplex 4%positive)) verbose world = Ok (true, world) /\
    f (AnyType (PComplex 2%positive)) verbose world = Ok (false, world).
Proof.
  destruct (OnlyTypes_filter emptyConfig ["[I]"]) as (f & Hf & Hok & _ & _).
  exists f. split; [exact Hf|]. split.
  - exact (Hok ["I"%char] (PComplex 4%positive) (mkName tns "Coded")
             verbose world eq_refl eq_refl).
  - exact (Hok ["I"%char] (PComplex 2%positive) (mkName tns "IntArray")
             verbose world eq_refl eq_refl).
Defined.


Lemma overrideWildcardType_twice_witness :
  climbs world (PComplex 2%positive) 1 (PComplex 1%positive) /\
  exists w1 w2,
    overrideWildcardType 2%positive int verbose world = Ok (2%positive, w1) /\
    overrideWildcardType 2%positive int verbose w1 = Ok (2%positive, w2) /\
    complexTypes w2 = complexTypes w1 /\ simpleTypes w2 = simpleTypes w1.
Proof.
  assert (Hc : climbs world (PComplex 2%positive) 1 (PComplex 1%positive)).
  { eapply (climbs_up world 2%positive IntArray);
      [reflexivity|discriminate|reflexivity|constructor]. }
  split; [exact Hc|].
  exact (overrideWildcardType_twice world verbose 2%positive IntArray 1
           1%positive Array anyEl int (xsName "anyType") (xsName "int")
           Hc ltac:(vm_compute; lia) eq_refl eq_refl
           ltac:(discriminate) eq_refl eq_refl eq_refl).
Defined.



Lemma parseSOAPArrayType_twice_witness :
  climbs world (PComplex 2%positive) 1 (PComplex 1%positive) /\
  exists w1 w2,
    parseSOAPArrayType schema (PComplex 2%positive) verbose world
    = Ok (PComplex 2%positive, w1) /\
    parseSOAPArrayType schema (PComplex 2%positive) verbose w1
    = Ok (PComplex 2%positive, w2) /\
    complexTypes w2 = complexTypes w1 /\ simpleTypes w2 = simpleTypes w1.
Proof.
  assert (Hc : climbs world (PComplex 2%positive) 1 (PComplex 1%positive)).
  { eapply (climbs_up world 2%positive IntArray);
      [reflexivity|discriminate|reflexivity|constructor]. }
  split; [exact Hc|].
  exact (parseSOAPArrayType_twice schema 2%positive IntArray 1%nat
           (arrayTypeOf "xs:int[]") (mkAttr (mkName wsdl "arrayType") "xs:int[]")
           int 1 1%positive Array anyEl (xsName "anyType") (xsName "int")
           verbose world eq_refl eq_refl ltac:(discriminate) eq_refl
           ltac:(discriminate) Hc ltac:(vm_compute; lia) eq_refl
           ltac:(discriminate) eq_refl eq_refl eq_refl).
Defined.

Lemma xmltagOf_words_witness :
  xmltagOf "ns item,omitempty" = mkName "ns" "item" /\
  Local (xmltagOf "ns item,omitempty") <> ",any".
Proof.
  split; [reflexivity|].
  destruct (xmltagOf_words "ns item,omitempty") as ([Hany|Hword] & _ & _ & Hsent).
  - discriminate Hany.
  - exact (Hsent Hword).
Defined.

Lemma soapArrayToSlice_flattened_witness :
  exists s',
    soapArrayToSlice wrapper verbose world =
    Ok (s', print world [(0%nat, FlatteningStruct "IntArray" (Ident "int"))]) /\
    expr s' = intSlice /\
    soapArrayToSlice s' silent world = Ok (s', world).
Proof.
  destruct (soapArrayToSlice_flattened wrapper items None (Ident "int")
              (unmarshalFunc "IntArray" (mkName EmptyString "item") "int")
              (marshalFunc "IntArray") verbose world
              eq_refl eq_refl eq_refl eq_refl) as [Hrun Hagain].
  eexists. split; [exact Hrun|]. split; [reflexivity|]. apply Hagain.
Defined.

Lemma overrideWildcardType_cycle_witness :
  climbs loop (PComplex 1%positive) 2 (PComplex 1%positive) /\
  overrideWildcardType 1%positive int verbose loop = OutOfFuel.
Proof.
  assert (Hc : climbs loop (PComplex 1%positive) 2 (PComplex 1%positive)).
  { eapply (climbs_up loop 1%positive Ping);
      [reflexivity|discriminate|reflexivity|].
    eapply (climbs_up loop 2%positive Pong);
      [reflexivity|discriminate|reflexivity|constructor]. }
  split; [exact Hc|].
  exact (proj2 (overrideWildcardType_cycle loop 1%positive 1 int verbose Hc)).
Defined.

Lemma name_slots_never_set_witness :
  typeNameTransform
    (applyAll emptyConfig
       [ReplaceAllNames "[.]" EmptyString;
        snd (apply (ReplaceAllNames "[.]" EmptyString) emptyConfig);
        PackageName "ws"]) = None.
Proof.
  refine (proj1 (name_slots_never_set emptyConfig _ _)).
  apply List.Forall_cons; [by apply obtainable_exported|].
  apply List.Forall_cons;
    [apply obtainable_returned; by apply obtainable_exported|].
  apply List.Forall_cons; [by apply obtainable_exported|constructor].
Defined.

End MoreInstances.
